(** * tube-solver: a shallow embedding of [TubeSolver] (src/tube.py)

    The Python class keeps a list of tubes (each a list of integer colour
    units, bottom first), the move trace, the set of visited fingerprints
    and three attributes fixed by the constructor.  Methods are modelled as
    functions on an explicit [State] record.  Subscripting a list with an
    index that is out of range raises [IndexError] in Python; this is the
    [Raise] case of [result].  Negative subscripts count from the end, as
    in Python. *)

From stdpp Require Import base decidable option numbers list list_numbers.
From stdpp Require Import strings pretty sorting gmap.
From Stdlib Require Import Ascii.

Local Open Scope Z_scope.

(** ** Python values and exceptions *)

Inductive exn : Type := IndexError.

Inductive result (A : Type) : Type :=
  | Ok (a : A)
  | Raise (e : exn).
Arguments Ok {A} a.
Arguments Raise {A} e.

#[global] Instance result_ret : MRet result := fun A a => Ok a.
#[global] Instance result_bind : MBind result := fun A B f m =>
  match m with
  | Ok a => f a
  | Raise e => Raise e
  end.

#[global] Instance result_fmap : FMap result := fun A B f m =>
  match m with
  | Ok a => Ok (f a)
  | Raise e => Raise e
  end.

(** Colours are Python integers; a tube is the list of its units, bottom
    first. *)
Abbreviation color := Z (only parsing).
Abbreviation tube := (list Z) (only parsing).

Module Py.

(** [l[i]] resolves [i] to a position of a list of length [n]. *)
Definition index (n : nat) (i : Z) : option nat :=
  if bool_decide (0 ≤ i < Z.of_nat n) then Some (Z.to_nat i)
  else if bool_decide (- Z.of_nat n ≤ i < 0) then Some (Z.to_nat (i + Z.of_nat n))
  else None.

(** [l[i]] *)
Definition getitem {A} (l : list A) (i : Z) : result A :=
  match index (length l) i with
  | Some k =>
      match l !! k with
      | Some x => Ok x
      | None => Raise IndexError
      end
  | None => Raise IndexError
  end.

(** [l[i] = x] *)
Definition setitem {A} (l : list A) (i : Z) (x : A) : result (list A) :=
  match index (length l) i with
  | Some k => Ok (<[k:=x]> l)
  | None => Raise IndexError
  end.

(** The bound of a slice [l[i:]] or [l[:i]] once clipped to the list. *)
Definition slice_bound (n : nat) (i : Z) : nat :=
  if bool_decide (i < 0) then Z.to_nat (Z.max 0 (i + Z.of_nat n))
  else Z.to_nat (Z.min i (Z.of_nat n)).

(** [l[i:]] *)
Definition slice_from {A} (l : list A) (i : Z) : list A :=
  drop (slice_bound (length l) i) l.

(** [l[:i]] *)
Definition slice_to {A} (l : list A) (i : Z) : list A :=
  take (slice_bound (length l) i) l.

(** [len(l)] *)
Definition len {A} (l : list A) : Z := Z.of_nat (length l).

(** [enumerate(l)], counting from [k]. *)
Fixpoint enumerate_from {A} (k : Z) (l : list A) : list (Z * A) :=
  match l with
  | [] => []
  | x :: l' => (k, x) :: enumerate_from (k + 1) l'
  end.
Definition enumerate {A} (l : list A) : list (Z * A) := enumerate_from 0 l.

(** [range(n)] *)
Definition range (n : Z) : list Z := seqZ 0 n.

(** [sorted(l)] for the order [le]: Python's sort is stable, as is this
    insertion sort (an element is put in front of the elements it is not
    greater than, and it comes from the left of them). *)
Section Sorted.
Context {A : Type} (le : A → A → bool).
Fixpoint insert_sorted (x : A) (l : list A) : list A :=
  match l with
  | [] => [x]
  | y :: l' => if le x y then x :: y :: l' else y :: insert_sorted x l'
  end.
Definition sorted (l : list A) : list A := foldr insert_sorted [] l.
End Sorted.

(** [sep.join(l)] *)
Fixpoint join (sep : string) (l : list string) : string :=
  match l with
  | [] => EmptyString
  | [s] => s
  | s :: l' => s +:+ sep +:+ join sep l'
  end.

(** [str(n)] for an integer. *)
Definition str (n : Z) : string := pretty n.

End Py.

(** ** The solver's state *)

Record State : Type := mkState {
  original_tubes : list tube;
  tubes : list tube;
  tube_capacity : Z;
  moves : list (Z * Z);
  visited_states : gset string;
  total_colors : nat;
  empty_tubes_count : nat
}.

Definition set_tubes (s : State) (ts : list tube) : State :=
  mkState (original_tubes s) ts (tube_capacity s) (moves s)
          (visited_states s) (total_colors s) (empty_tubes_count s).

Definition set_moves (s : State) (ms : list (Z * Z)) : State :=
  mkState (original_tubes s) (tubes s) (tube_capacity s) ms
          (visited_states s) (total_colors s) (empty_tubes_count s).

Definition set_visited (s : State) (v : gset string) : State :=
  mkState (original_tubes s) (tubes s) (tube_capacity s) (moves s)
          v (total_colors s) (empty_tubes_count s).

Definition set_capacity (s : State) (c : Z) : State :=
  mkState (original_tubes s) (tubes s) c (moves s)
          (visited_states s) (total_colors s) (empty_tubes_count s).

(** [_count_total_colors]: every tube of the original configuration is added
    to a set; the result is the size of that set. *)
Definition _count_total_colors (orig : list tube) : nat :=
  size (foldl (fun (all_colors : gset color) t => all_colors ∪ list_to_set t) ∅ orig).

(** [_count_empty_tubes] *)
Definition _count_empty_tubes (orig : list tube) : nat :=
  length (filter (fun t : tube => Py.len t = 0) orig).

(** [__init__]: both tube lists are copies of the argument, so the slots of
    [tubes] never share a list object with each other or with the
    original. *)
Definition init (cfg : list tube) : State :=
  {| original_tubes := cfg;
     tubes := cfg;
     tube_capacity := 4;
     moves := [];
     visited_states := ∅;
     total_colors := _count_total_colors cfg;
     empty_tubes_count := _count_empty_tubes cfg |}.

(** ** Pour engine *)

(** [can_pour]. The tests run in the order of the source: equal indices are
    refused before any subscript is evaluated, and an empty source is
    refused before the destination is looked at. *)
Definition can_pour (s : State) (from_index to_index : Z) : result bool :=
  if bool_decide (from_index = to_index) then Ok false else
  src ← Py.getitem (tubes s) from_index;
  if bool_decide (Py.len src = 0) then Ok false else
  dst ← Py.getitem (tubes s) to_index;
  if bool_decide (tube_capacity s ≤ Py.len dst) then Ok false else
  from_color ← Py.getitem src (-1);
  to_color ← (if bool_decide (0 < Py.len dst)
              then Some <$> Py.getitem dst (-1) else Ok None);
  Ok (match to_color with
      | None => true
      | Some c => bool_decide (c = from_color)
      end).

(** The loop of [pour] that measures the run on top of the source: it walks
    the tube from its last unit downwards and stops at the first unit of
    another colour.  [run_length c l] is that walk over the reversed tube. *)
Fixpoint run_length (c : color) (l : list color) : Z :=
  match l with
  | [] => 0
  | x :: l' => if bool_decide (x = c) then 1 + run_length c l' else 0
  end.

(** [pour]. The source slot is assigned first and the destination slot is
    read again afterwards, as the two statements of the source do. *)
Definition pour (s : State) (from_index to_index : Z) : result (bool * State) :=
  ok ← can_pour s from_index to_index;
  if negb ok then Ok (false, s) else
  src ← Py.getitem (tubes s) from_index;
  from_color ← Py.getitem src (-1);
  let count := run_length from_color (reverse src) in
  dst ← Py.getitem (tubes s) to_index;
  let space := tube_capacity s - Py.len dst in
  let pour_count := Z.min count space in
  let poured := Py.slice_from src (- pour_count) in
  tubes1 ← Py.setitem (tubes s) from_index (Py.slice_to src (- pour_count));
  dst1 ← Py.getitem tubes1 to_index;
  tubes2 ← Py.setitem tubes1 to_index (dst1 ++ poured);
  Ok (true, set_moves (set_tubes s tubes2) (moves s ++ [(from_index, to_index)])).

(** ** State queries *)

(** [get_state_hash] *)
Definition tube_string (t : tube) : string := Py.join "," (Py.str <$> t).

Definition get_state_hash (s : State) : string :=
  Py.join "|" (Py.sorted String.leb (tube_string <$> tubes s)).

(** [is_solved]: the loop over the tubes, with its two counters.  [None] is
    the early [return False]. *)
Fixpoint is_solved_loop (cap : Z) (ts : list tube) (completed empty : nat)
  : option (nat * nat) :=
  match ts with
  | [] => Some (completed, empty)
  | t :: ts' =>
      if bool_decide (Py.len t = 0) then is_solved_loop cap ts' completed (S empty)
      else if bool_decide (Py.len t ≠ cap) then None
      else
        match t with
        | [] => None
        | color :: rest =>
            if forallb (fun c => bool_decide (c = color)) rest
            then is_solved_loop cap ts' (S completed) empty
            else None
        end
  end.

Definition is_solved (s : State) : bool :=
  match is_solved_loop (tube_capacity s) (tubes s) 0 0 with
  | None => false
  | Some (completed, empty) =>
      bool_decide (completed = total_colors s) && bool_decide (empty = empty_tubes_count s)
  end.

(** [get_empty_tubes] and [get_tubes_with_space] *)
Definition get_empty_tubes (s : State) : list Z :=
  '(i, t) ← Py.enumerate (tubes s);
  if bool_decide (Py.len t = 0) then [i] else [].

Definition get_tubes_with_space (s : State) : list Z :=
  '(i, t) ← Py.enumerate (tubes s);
  if bool_decide (Py.len t < tube_capacity s) then [i] else [].

(** ** Colour analyzer *)

(** An entry of the [positions] lists ([tube_index], [position], [depth],
    [is_top]); [find_moves_for_color] adds [blocking_colors]. *)
Record Position : Type := mkPosition {
  tube_index : Z;
  position : Z;
  depth : Z;
  is_top : bool;
  blocking_colors : list color
}.

(** The nested loops over [enumerate(self.tubes)] and [enumerate(tube)] that
    collect the occurrences of one colour: [tube_positions] is the inner
    loop.  [with_blocking] tells the two callers apart: [analyze_colors]
    stores no [blocking_colors]. *)
Definition tube_positions (with_blocking : bool) (ti : Z) (t : tube) (c : color)
  : list Position :=
  '(pos, tube_color) ← Py.enumerate t;
  if bool_decide (tube_color = c) then
    [ {| tube_index := ti;
         position := pos;
         depth := Py.len t - pos - 1;
         is_top := bool_decide (pos = Py.len t - 1);
         blocking_colors := if with_blocking then Py.slice_from t (pos + 1) else [] |} ]
  else [].

Definition positions_of (with_blocking : bool) (ts : list tube) (c : color)
  : list Position :=
  '(ti, t) ← Py.enumerate ts; tube_positions with_blocking ti t c.

(** [key=lambda x: x['depth'], reverse=True] *)
Definition by_depth_desc (x y : Position) : bool := bool_decide (depth y ≤ depth x).

(** [max(...)] of a list that the caller knows to be non-empty. *)
Definition py_max (l : list Z) : Z :=
  match l with
  | [] => 0
  | x :: l' => foldl Z.max x l'
  end.

Record ColorData : Type := mkColorData {
  total_count : Z;
  positions : list Position;
  is_collectible : bool;
  max_depth : Z
}.

(** A candidate of [find_moves_for_color].  The [description] text of the
    source is only displayed and is left out. *)
Inductive MoveType : Type := collect | free | free_to_empty | merge.

Record Candidate : Type := mkCandidate {
  cand_from : Z;
  cand_to : Z;
  cand_type : MoveType;
  priority : Z
}.

(** [key=lambda x: x['priority'], reverse=True] *)
Definition by_priority_desc (x y : Candidate) : bool :=
  bool_decide (priority y ≤ priority x).

(** All [(from_idx, to_idx)] with [can_pour], in the order of the two nested
    [range(len(self.tubes))] loops. *)
Fixpoint legal_from (s : State) (from_idx : Z) (tos : list Z) : result (list (Z * Z)) :=
  match tos with
  | [] => Ok []
  | to_idx :: tos' =>
      ok ← can_pour s from_idx to_idx;
      rest ← legal_from s from_idx tos';
      Ok (if (ok : bool) then (from_idx, to_idx) :: rest else rest)
  end.

Fixpoint legal_pairs (s : State) (froms tos : list Z) : result (list (Z * Z)) :=
  match froms with
  | [] => Ok []
  | from_idx :: froms' =>
      here ← legal_from s from_idx tos;
      rest ← legal_pairs s froms' tos;
      Ok (here ++ rest)
  end.

Definition all_legal_moves (s : State) : result (list (Z * Z)) :=
  let idx := Py.range (Py.len (tubes s)) in legal_pairs s idx idx.

(** ** Move planner *)

(** The guarded [append] loops of [find_moves_for_color]: one candidate of
    the given kind for every [to_idx] of [targets] with
    [from_idx != to_idx and self.can_pour(from_idx, to_idx)]. *)
Fixpoint candidates_into (s : State) (from_idx : Z) (ty : MoveType) (prio : Z)
    (targets : list Z) : result (list Candidate) :=
  match targets with
  | [] => Ok []
  | to_idx :: targets' =>
      ok ← (if bool_decide (from_idx ≠ to_idx) then can_pour s from_idx to_idx
            else Ok false);
      rest ← candidates_into s from_idx ty prio targets';
      Ok (if (ok : bool) then mkCandidate from_idx to_idx ty prio :: rest else rest)
  end.

(** The body of [for pos in target_positions]. *)
Definition candidates_for_position (s : State) (empty_tubes tubes_with_space : list Z)
    (pos : Position) : result (list Candidate) :=
  if is_top pos then
    candidates_into s (tube_index pos) collect 80 tubes_with_space
  else
    if bool_decide (blocking_colors pos ≠ []) then
      freeing ← candidates_into s (tube_index pos) free 90 tubes_with_space;
      emptying ← candidates_into s (tube_index pos) free_to_empty 95 empty_tubes;
      Ok (freeing ++ emptying)
    else Ok [].

Fixpoint candidates_for_positions (s : State) (empty_tubes tubes_with_space : list Z)
    (ps : list Position) : result (list Candidate) :=
  match ps with
  | [] => Ok []
  | pos :: ps' =>
      here ← candidates_for_position s empty_tubes tubes_with_space pos;
      rest ← candidates_for_positions s empty_tubes tubes_with_space ps';
      Ok (here ++ rest)
  end.

(** The inner loop [for j in range(i + 1, ...)] of the merge step. *)
Fixpoint merge_into (s : State) (from_idx : Z) (later : list Z) : result (list Candidate) :=
  match later with
  | [] => Ok []
  | to_idx :: later' =>
      ok ← can_pour s from_idx to_idx;
      rest ← merge_into s from_idx later';
      Ok (if (ok : bool) then mkCandidate from_idx to_idx merge 70 :: rest else rest)
  end.

Fixpoint merge_candidates (s : State) (tops : list Z) : result (list Candidate) :=
  match tops with
  | [] => Ok []
  | from_idx :: tops' =>
      here ← merge_into s from_idx tops';
      rest ← merge_candidates s tops';
      Ok (here ++ rest)
  end.

Definition tubes_with_target_top (s : State) (target_color : color) : list Z :=
  '(i, t) ← Py.enumerate (tubes s);
  match last t with
  | Some c => if bool_decide (c = target_color) then [i] else []
  | None => []
  end.

(** [find_moves_for_color] *)
Definition find_moves_for_color (s : State) (target_color : color)
  : result (list Candidate) :=
  let empty_tubes := get_empty_tubes s in
  let tubes_with_space := get_tubes_with_space s in
  let target_positions :=
    Py.sorted by_depth_desc (positions_of true (tubes s) target_color) in
  found ← candidates_for_positions s empty_tubes tubes_with_space target_positions;
  let tops := tubes_with_target_top s target_color in
  merged ← (if bool_decide (1 < Py.len tops) then merge_candidates s tops else Ok []);
  Ok (Py.sorted by_priority_desc (found ++ merged)).

(** The test of the inner loop of the first pass of [find_backup_move]:
    [from_idx != to_idx and self.can_pour(from_idx, to_idx) and
     self.tubes[from_idx] and self.tubes[from_idx][-1] == color]. *)
Definition backup_test (s : State) (from_idx to_idx : Z) (color : color)
  : result bool :=
  if bool_decide (from_idx ≠ to_idx) then
    legal ← can_pour s from_idx to_idx;
    if negb legal then Ok false else
    src ← Py.getitem (tubes s) from_idx;
    if bool_decide (src = []) then Ok false else
    top ← Py.getitem src (-1);
    Ok (bool_decide (top = color))
  else Ok false.

(** The inner loop: the first [from_idx] that passes the test. *)
Fixpoint backup_source (s : State) (to_idx : Z) (color : color) (froms : list Z)
  : result (option (Z * Z)) :=
  match froms with
  | [] => Ok None
  | from_idx :: froms' =>
      ok ← backup_test s from_idx to_idx color;
      if (ok : bool) then Ok (Some (from_idx, to_idx))
      else backup_source s to_idx color froms'
  end.

(** The first pass: tubes one unit short of full and of one colour. *)
Fixpoint backup_first_pass (s : State) (ets : list (Z * tube))
  : result (option (Z * Z)) :=
  match ets with
  | [] => Ok None
  | (to_idx, t) :: ets' =>
      found ← (if bool_decide (Py.len t = tube_capacity s - 1) then
                 color ← Py.getitem t 0;
                 if forallb (fun c => bool_decide (c = color)) t
                 then backup_source s to_idx color (Py.range (Py.len (tubes s)))
                 else Ok None
               else Ok None);
      match found with
      | Some m => Ok (Some m)
      | None => backup_first_pass s ets'
      end
  end.

(** The second pass: the first legal pair of the two nested loops. *)
Fixpoint first_legal_from (s : State) (from_idx : Z) (tos : list Z)
  : result (option (Z * Z)) :=
  match tos with
  | [] => Ok None
  | to_idx :: tos' =>
      ok ← can_pour s from_idx to_idx;
      if (ok : bool) then Ok (Some (from_idx, to_idx))
      else first_legal_from s from_idx tos'
  end.

Fixpoint first_legal (s : State) (froms tos : list Z) : result (option (Z * Z)) :=
  match froms with
  | [] => Ok None
  | from_idx :: froms' =>
      found ← first_legal_from s from_idx tos;
      match found with
      | Some m => Ok (Some m)
      | None => first_legal s froms' tos
      end
  end.

Definition backup_second_pass (s : State) : result (option (Z * Z)) :=
  let idx := Py.range (Py.len (tubes s)) in first_legal s idx idx.

(** [find_backup_move] *)
Definition find_backup_move (s : State) : result (option (Z * Z)) :=
  found ← backup_first_pass s (Py.enumerate (tubes s));
  match found with
  | Some m => Ok (Some m)
  | None => backup_second_pass s
  end.

(** The iteration order of a Python set of integers is fixed by the
    interpreter, not by the language; [set_iter l] stands for the order in
    which a set that received the elements of [l] is iterated.  The escape
    move of [solve] is drawn by [random.choice]; [rng k] is the number drawn
    in iteration [k] of the loop. *)
Section Solver.

Variable set_iter : list color → list color.
Variable rng : nat → nat.

(** [analyze_colors]. [total_count] is incremented exactly when a position
    is appended, so it is the length of [positions]. *)
Definition analyze_colors (s : State) : list (color * ColorData) :=
  color ← set_iter (concat (tubes s));
  let positions := positions_of false (tubes s) color in
  let total_count := Py.len positions in
  if bool_decide (total_count = tube_capacity s) then
    let positions := Py.sorted by_depth_desc positions in
    [ (color,
       {| total_count := total_count;
          positions := positions;
          is_collectible := existsb is_top positions;
          max_depth := if bool_decide (positions ≠ [])
                       then py_max (depth <$> positions) else 0 |}) ]
  else [].

(** One iteration of the loop of [find_target_color]. *)
Definition target_step (best : option color * Z) (item : color * ColorData)
  : option color * Z :=
  let '(best_color, best_score) := best in
  let '(color, data) := item in
  if negb (is_collectible data) then (best_color, best_score) else
  let score := max_depth data * 10 in
  let top_positions := filter (fun p => is_top p = true) (positions data) in
  let score := if bool_decide (1 < Py.len top_positions)
               then score + Py.len top_positions * 5 else score in
  if bool_decide (best_score < score) then (Some color, score)
  else (best_color, best_score).

Definition find_target_color (s : State) : option color :=
  fst (foldl target_step (None, -1) (analyze_colors s)).

(** [random.choice(seq)]: the element at the drawn position. *)
Definition random_choice {A} (r : nat) (seq : list A) : result A :=
  Py.getitem seq (Z.of_nat (r `mod` length seq)%nat).

(** The fallback of the loop body: pour the backup move, or [break]. *)
Definition backup_step (s : State) : result (bool * State) :=
  backup_move ← find_backup_move s;
  match backup_move with
  | Some (from_idx, to_idx) =>
      r ← pour s from_idx to_idx; Ok (true, r.2)
  | None => Ok (false, s)
  end.

(** The body of the [while] loop of [solve] for an unsolved state, in
    iteration [k].  The flag is [false] when the body ends in [break].
    The progress lines printed by the source are output only and are not
    modelled. *)
Definition solve_step (k : nat) (s : State) : result (bool * State) :=
  let state_hash := get_state_hash s in
  if bool_decide (state_hash ∈ visited_states s) then
    all_moves ← all_legal_moves s;
    if bool_decide (all_moves ≠ []) then
      random_move ← random_choice (rng k) all_moves;
      r ← pour s random_move.1 random_move.2; Ok (true, r.2)
    else Ok (false, s)
  else
    let s := set_visited s (visited_states s ∪ {[ state_hash ]}) in
    match find_target_color s with
    | Some target_color =>
        if bool_decide (target_color ≠ 0) then
          color_moves ← find_moves_for_color s target_color;
          match color_moves with
          | best_move :: _ =>
              r ← pour s (cand_from best_move) (cand_to best_move); Ok (true, r.2)
          | [] => backup_step s
          end
        else backup_step s
    | None => backup_step s
    end.

(** The [while not self.is_solved()] loop.  The source sets no bound on
    the number of iterations; [fuel] bounds them here and [None] means
    that the bound was reached. *)
Fixpoint solve_loop (fuel k : nat) (s : State) : option (result State) :=
  match fuel with
  | O => None
  | S fuel' =>
      if is_solved s then Some (Ok s) else
      match solve_step k s with
      | Raise e => Some (Raise e)
      | Ok (false, s') => Some (Ok s')
      | Ok (true, s') => solve_loop fuel' (S k) s'
      end
  end.

(** [solve]: reset to the original configuration, run the loop, report
    [is_solved] of the final state. *)
Definition reset (s : State) : State :=
  set_visited (set_moves (set_tubes s (original_tubes s)) []) ∅.

Definition solve (fuel : nat) (s : State) : option (result (bool * State)) :=
  match solve_loop fuel 0 (reset s) with
  | None => None
  | Some r => Some (s' ← r; Ok (is_solved s', s'))
  end.

End Solver.

(** ** Notions used to state the properties *)

(** What a legal pour looks like in the tubes: [i] and [j] are the
    positions that the two subscripts resolve to. *)
Definition legal (s : State) (from_index to_index : Z)
    (i j : nat) (src dst : tube) (c : color) : Prop :=
  from_index ≠ to_index ∧
  Py.index (length (tubes s)) from_index = Some i ∧
  Py.index (length (tubes s)) to_index = Some j ∧
  tubes s !! i = Some src ∧ tubes s !! j = Some dst ∧
  last src = Some c ∧
  Py.len dst < tube_capacity s ∧
  (dst = [] ∨ last dst = Some c).

(** The number of units that [pour] moves. *)
Definition pour_count (s : State) (src dst : tube) (c : color) : nat :=
  Z.to_nat (Z.min (run_length c (reverse src)) (tube_capacity s - Py.len dst)).

(** The tubes after a legal pour. When both subscripts resolve to the same
    slot (one of them negative) the slot receives back what it gave. *)
Definition poured_tubes (s : State) (i j : nat) (src dst : tube) (c : color)
  : list tube :=
  let m := pour_count s src dst c in
  let tubes1 := <[i := take (length src - m) src]> (tubes s) in
  <[j := (if decide (i = j) then take (length src - m) src else dst)
         ++ drop (length src - m) src]> tubes1.

(** A tube of one colour: any two of its units are equal.  A completed
    tube is at capacity and of one colour. *)
Definition single_color (t : tube) : Prop :=
  Forall (fun x => Forall (fun y => x = y) t) t.

Definition full_single_color (cap : Z) (t : tube) : Prop :=
  Py.len t = cap ∧ single_color t.

#[global] Instance single_color_dec t : Decision (single_color t).
Proof. unfold single_color. apply _. Defined.

#[global] Instance full_single_color_dec cap t : Decision (full_single_color cap t).
Proof. unfold full_single_color. apply _. Defined.

Definition count_completed (cap : Z) (ts : list tube) : nat :=
  length (filter (full_single_color cap) ts).

Definition count_empty (ts : list tube) : nat :=
  length (filter (fun t : tube => t = []) ts).

(** The number of distinct colours of a configuration. *)
Definition distinct_colors (cfg : list tube) : nat :=
  length (remove_dups (concat cfg)).

(** The two-tube example: one unit of colour 1 in each tube, with the
    capacity attribute set to 2. *)
Definition example_state : State := set_capacity (init [[1]; [1]]) 2.

(** A subscript of [range(len(self.tubes))], and a state in which no pair
    of such subscripts is a legal pour. *)
Definition in_range (s : State) (i : Z) : Prop := 0 ≤ i < Py.len (tubes s).

Definition stuck (s : State) : Prop :=
  ∀ f t, in_range s f → in_range s t → can_pour s f t ≠ Ok true.

(** A legal pour into a tube that is one unit short of full and of one
    colour, from a tube with that colour on top. *)
Definition almost_complete_move (s : State) (f t : Z) : Prop :=
  in_range s f ∧ in_range s t ∧ can_pour s f t = Ok true ∧
  ∃ (dst src : tube) (c : color),
    tubes s !! Z.to_nat t = Some dst ∧
    Py.len dst = tube_capacity s - 1 ∧
    Forall (fun x => x = c) dst ∧
    tubes s !! Z.to_nat f = Some src ∧
    last src = Some c.

(** The first legal pour of the scan [for from_idx ...: for to_idx ...]. *)
Definition first_legal_move (s : State) (f t : Z) : Prop :=
  in_range s f ∧ in_range s t ∧ can_pour s f t = Ok true ∧
  ∀ f' t', in_range s f' → in_range s t' →
    f' < f ∨ (f' = f ∧ t' < t) → can_pour s f' t' = Ok false.

(** What [set_iter] must be to stand for the iteration of a set: it lists
    the elements it was given, each once. *)
Definition set_enumeration (set_iter : list color → list color) : Prop :=
  ∀ l, NoDup (set_iter l) ∧ ∀ x, x ∈ set_iter l ↔ x ∈ l.

(** The number of units of a colour, and the number of tubes that have it
    on top. *)
Definition unit_count (ts : list tube) (c : color) : nat :=
  length (filter (fun x => x = c) (concat ts)).

Definition top_count (ts : list tube) (c : color) : nat :=
  length (filter (fun t : tube => last t = Some c) ts).

(** A collectible colour: as many units as the capacity, one of them on top
    of its tube. *)
Definition collectible (s : State) (c : color) : Prop :=
  Z.of_nat (unit_count (tubes s) c) = tube_capacity s ∧
  (1 ≤ top_count (tubes s) c)%nat.

(** [d] is the largest distance from the top of its tube among the units of
    colour [c]. *)
Definition is_max_depth (ts : list tube) (c : color) (d : Z) : Prop :=
  (∃ (ti pos : nat) (t : tube),
      ts !! ti = Some t ∧ t !! pos = Some c ∧ d = Py.len t - Z.of_nat pos - 1) ∧
  (∀ (ti pos : nat) (t : tube),
      ts !! ti = Some t → t !! pos = Some c → Py.len t - Z.of_nat pos - 1 ≤ d).

(** The score of a colour: ten times its largest depth, plus five for each
    tube that has it on top when there are several. *)
Definition has_score (s : State) (c : color) (sc : Z) : Prop :=
  ∃ d, is_max_depth (tubes s) c d ∧
       sc = d * 10 + (if bool_decide (1 < top_count (tubes s) c)%nat
                      then Z.of_nat (top_count (tubes s) c) * 5 else 0).

(** The score that the loop of [find_target_color] computes from an entry
    of the analysis. *)
Definition entry_score (data : ColorData) : Z :=
  let tops := Py.len (filter (fun p => is_top p = true) (positions data)) in
  max_depth data * 10 + (if bool_decide (1 < tops) then tops * 5 else 0).

(** The states that the constructor and any sequence of [pour] calls can
    produce from a configuration. *)
Inductive reachable (cfg : list tube) : State → Prop :=
  | reach_init : reachable cfg (init cfg)
  | reach_pour s from_index to_index b s' :
      reachable cfg s →
      pour s from_index to_index = Ok (b, s') →
      reachable cfg s'.

(** ** Notions used to state the further properties *)

(** The tube at index [i] has colour [c] on top; it holds a unit of colour
    [c] below its top unit. *)
Definition top_is (s : State) (i : Z) (c : color) : Prop :=
  ∃ t : tube, tubes s !! Z.to_nat i = Some t ∧ last t = Some c.

Definition buried (s : State) (i : Z) (c : color) : Prop :=
  ∃ (t : tube) (pos : nat),
    tubes s !! Z.to_nat i = Some t ∧ t !! pos = Some c ∧ (pos + 1 < length t)%nat.

(** What a candidate of [find_moves_for_color] for the colour [c] is: a
    legal pour between tube indices, with the priority of its kind, and the
    source and destination that its kind announces. *)
Definition candidate_ok (s : State) (c : color) (m : Candidate) : Prop :=
  in_range s (cand_from m) ∧ in_range s (cand_to m) ∧
  can_pour s (cand_from m) (cand_to m) = Ok true ∧
  match cand_type m with
  | collect => priority m = 80 ∧ top_is s (cand_from m) c
  | free => priority m = 90 ∧ buried s (cand_from m) c
  | free_to_empty =>
      priority m = 95 ∧ buried s (cand_from m) c ∧
      tubes s !! Z.to_nat (cand_to m) = Some []
  | merge => priority m = 70 ∧ top_is s (cand_from m) c ∧ top_is s (cand_to m) c
  end.

(** Replaying a move trace: every move must be a pour that succeeds. *)
Fixpoint replay (s : State) (ms : list (Z * Z)) : option State :=
  match ms with
  | [] => Some s
  | (from_index, to_index) :: ms' =>
      match pour s from_index to_index with
      | Ok (true, s') => replay s' ms'
      | _ => None
      end
  end.

(** The string [s] does not contain the character [a]. *)
Fixpoint avoids (a : ascii) (s : string) : Prop :=
  match s with
  | EmptyString => True
  | String b s' => b ≠ a ∧ avoids a s'
  end.

(** The entry [p] of a [positions] list describes a unit of colour [c]:
    where it is, how far under the top of its tube, and whether it is the
    top unit. *)
Definition describes_unit (s : State) (c : color) (p : Position) : Prop :=
  ∃ t : tube,
    0 ≤ tube_index p ∧ 0 ≤ position p ∧
    tubes s !! Z.to_nat (tube_index p) = Some t ∧
    t !! Z.to_nat (position p) = Some c ∧
    depth p = Py.len t - position p - 1 ∧
    (is_top p = true ↔ depth p = 0).

(** * Properties *)

(** ** Subscripts and slices *)

Lemma index_Some n i k :
  Py.index n i = Some k → (k < n)%nat ∧ (i = Z.of_nat k ∨ i = Z.of_nat k - Z.of_nat n).
Proof.
  unfold Py.index. repeat case_bool_decide; intros [= <-]; lia.
Qed.

Lemma index_of_nat n (k : nat) : (k < n)%nat → Py.index n (Z.of_nat k) = Some k.
Proof.
  intros Hk. unfold Py.index. rewrite bool_decide_eq_true_2 by lia.
  by rewrite Nat2Z.id.
Qed.

Lemma index_range n i : 0 ≤ i < Z.of_nat n → Py.index n i = Some (Z.to_nat i).
Proof. intros Hi. unfold Py.index. by rewrite bool_decide_eq_true_2. Qed.

Lemma getitem_Ok {A} (l : list A) i x :
  Py.getitem l i = Ok x ↔ ∃ k, Py.index (length l) i = Some k ∧ l !! k = Some x.
Proof.
  unfold Py.getitem. destruct (Py.index _ _) as [k|] eqn:Hk.
  - destruct (l !! k) as [y|] eqn:Hy; split.
    + intros [= ->]. eauto.
    + intros (k' & [= <-] & Hx). congruence.
    + done.
    + intros (k' & [= <-] & Hx). congruence.
  - split; [done | intros (k & ? & _); done].
Qed.

Lemma getitem_index {A} (l : list A) i k :
  Py.index (length l) i = Some k → ∃ x, l !! k = Some x ∧ Py.getitem l i = Ok x.
Proof.
  intros Hk. destruct (index_Some _ _ _ Hk) as [Hlt _].
  destruct (lookup_lt_is_Some_2 l k Hlt) as [x Hx].
  exists x. split; [done|]. apply getitem_Ok; eauto.
Qed.

Lemma getitem_last {A} (l : list A) x :
  Py.getitem l (-1) = Ok x ↔ last l = Some x.
Proof.
  rewrite getitem_Ok, last_lookup. unfold Py.index. split.
  - intros (k & Hk & Hx). repeat case_bool_decide; simplify_eq; try lia.
    replace (Nat.pred (length l)) with (Z.to_nat (-1 + Z.of_nat (length l))) by lia.
    done.
  - intros Hx. apply lookup_lt_Some in Hx as Hlt.
    exists (Nat.pred (length l)). split; [|done].
    rewrite bool_decide_eq_false_2, bool_decide_eq_true_2 by lia.
    f_equal. lia.
Qed.

Lemma getitem_last_nonempty {A} (l : list A) :
  l ≠ [] → ∃ x, last l = Some x ∧ Py.getitem l (-1) = Ok x.
Proof.
  intros Hl. destruct (last l) as [x|] eqn:Hx.
  - exists x. split; [done|]. by apply getitem_last.
  - by apply last_None in Hx.
Qed.

Lemma slice_to_neg {A} (l : list A) (m : nat) :
  (1 ≤ m ≤ length l)%nat → Py.slice_to l (- Z.of_nat m) = take (length l - m) l.
Proof.
  intros Hm. unfold Py.slice_to, Py.slice_bound.
  rewrite bool_decide_eq_true_2 by lia. f_equal. lia.
Qed.

Lemma slice_from_neg {A} (l : list A) (m : nat) :
  (1 ≤ m ≤ length l)%nat → Py.slice_from l (- Z.of_nat m) = drop (length l - m) l.
Proof.
  intros Hm. unfold Py.slice_from, Py.slice_bound.
  rewrite bool_decide_eq_true_2 by lia. f_equal. lia.
Qed.

Lemma len_zero {A} (l : list A) : Py.len l = 0 ↔ l = [].
Proof. unfold Py.len. destruct l; simpl; split; intros; (done || lia). Qed.

(** ** The run on top of a tube *)

Lemma run_length_bounds c l : 0 ≤ run_length c l ≤ Z.of_nat (length l).
Proof.
  induction l as [|x l IH]; simpl; [lia|]. case_bool_decide; lia.
Qed.

Lemma run_length_take c l :
  take (Z.to_nat (run_length c l)) l = replicate (Z.to_nat (run_length c l)) c.
Proof.
  induction l as [|x l IH]; simpl; [done|].
  case_bool_decide as Hx; [|done]. subst x.
  pose proof (run_length_bounds c l).
  replace (Z.to_nat (1 + run_length c l)) with (S (Z.to_nat (run_length c l))) by lia.
  simpl. by rewrite IH.
Qed.

Lemma run_length_stop c l x :
  l !! Z.to_nat (run_length c l) = Some x → x ≠ c.
Proof.
  induction l as [|y l IH]; simpl; [done|].
  case_bool_decide as Hy.
  - pose proof (run_length_bounds c l).
    replace (Z.to_nat (1 + run_length c l)) with (S (Z.to_nat (run_length c l))) by lia.
    simpl. apply IH.
  - simpl. intros [= <-]. done.
Qed.

Lemma run_length_replicate c (k : nat) l :
  (∀ x, head l = Some x → x ≠ c) →
  run_length c (replicate k c ++ l) = Z.of_nat k.
Proof.
  intros Hl. induction k as [|k IH]; simpl.
  - destruct l as [|x l]; simpl; [done|].
    rewrite bool_decide_eq_false_2; [done|]. by apply Hl.
  - rewrite bool_decide_eq_true_2 by done. lia.
Qed.

Lemma run_length_pos c l : head l = Some c → 1 ≤ run_length c l.
Proof.
  destruct l as [|x l]; simpl; [done|]. intros [= ->].
  rewrite bool_decide_eq_true_2 by done. pose proof (run_length_bounds c l). lia.
Qed.

Lemma head_reverse {A} (l : list A) : head (reverse l) = last l.
Proof.
  destruct l as [|x l _] using rev_ind; [done|].
  by rewrite reverse_snoc, last_snoc.
Qed.

(** The top [k] units of a tube, read from the source's side: the tube
    splits into what stays and [k] units of the colour [c]. *)
Lemma top_run_split c (src : list color) :
  last src = Some c →
  let k := Z.to_nat (run_length c (reverse src)) in
  (1 ≤ k ≤ length src)%nat ∧
  src = take (length src - k) src ++ replicate k c ∧
  (∀ x, last (take (length src - k) src) = Some x → x ≠ c).
Proof.
  intros Hlast k.
  pose proof (run_length_bounds c (reverse src)) as Hb.
  rewrite length_reverse in Hb.
  pose proof (run_length_pos c (reverse src)) as Hp.
  rewrite head_reverse in Hp. specialize (Hp Hlast).
  assert (1 ≤ k ≤ length src)%nat as Hk by (unfold k; lia).
  split; [done|]. split.
  - rewrite <-(take_drop (length src - k) src) at 1. f_equal.
    apply (inj reverse). rewrite reverse_replicate.
    pose proof (run_length_take c (reverse src)) as Ht. fold k in Ht.
    by rewrite <-Ht, take_reverse.
  - intros x Hx.
    destruct (decide (length src - k = 0)%nat) as [Hz|Hz];
      [by rewrite Hz in Hx|].
    rewrite last_lookup in Hx.
    rewrite lookup_take_lt in Hx by (rewrite length_take; lia).
    rewrite length_take in Hx.
    apply (run_length_stop c (reverse src)). fold k.
    rewrite reverse_lookup by lia. rewrite <-Hx. f_equal. lia.
Qed.

(** ** [can_pour] and [pour] *)

Lemma bind_Ok {A B} (m : result A) (f : A → result B) b :
  m ≫= f = Ok b ↔ ∃ a, m = Ok a ∧ f a = Ok b.
Proof.
  destruct m as [a|e]; simpl; split.
  - eauto.
  - by intros (a' & [= <-] & ?).
  - done.
  - by intros (a' & ? & ?).
Qed.

Lemma can_pour_legal s f t i j src dst c :
  legal s f t i j src dst c → can_pour s f t = Ok true.
Proof.
  intros (Hne & Hi & Hj & Hsrc & Hdst & Hc & Hcap & Htop).
  unfold can_pour. rewrite bool_decide_eq_false_2 by done.
  assert (Py.getitem (tubes s) f = Ok src) as -> by (apply getitem_Ok; eauto).
  simpl. rewrite bool_decide_eq_false_2.
  2:{ rewrite len_zero. by intros ->. }
  assert (Py.getitem (tubes s) t = Ok dst) as -> by (apply getitem_Ok; eauto).
  simpl. rewrite bool_decide_eq_false_2 by lia.
  apply getitem_last in Hc as ->. simpl.
  destruct Htop as [->|Htop]; simpl; [done|].
  rewrite bool_decide_eq_true_2.
  2:{ destruct dst; [done|]. unfold Py.len. simpl. lia. }
  apply getitem_last in Htop as ->. simpl.
  by rewrite bool_decide_eq_true_2.
Qed.

Lemma can_pour_true s f t :
  can_pour s f t = Ok true → ∃ i j src dst c, legal s f t i j src dst c.
Proof.
  unfold can_pour. case_bool_decide as Hne; [done|].
  intros H. apply bind_Ok in H as (src & Hsrc & H).
  case_bool_decide as Hlen; [done|].
  apply bind_Ok in H as (dst & Hdst & H).
  case_bool_decide as Hcap; [done|].
  apply bind_Ok in H as (c & Hc & H).
  apply bind_Ok in H as (tc & Htc & H).
  apply getitem_Ok in Hsrc as (i & Hi & Hsrc).
  apply getitem_Ok in Hdst as (j & Hj & Hdst).
  apply getitem_last in Hc.
  exists i, j, src, dst, c. repeat split; try done; [lia|].
  case_bool_decide as Hpos.
  - destruct (Py.getitem dst (-1)) as [x|] eqn:Hx; simplify_eq/=.
    apply getitem_last in Hx. right. by case_bool_decide; simplify_eq.
  - left. apply len_zero. unfold Py.len in *. lia.
Qed.

Lemma legal_unique s f t i j src dst c i' j' src' dst' c' :
  legal s f t i j src dst c → legal s f t i' j' src' dst' c' →
  i' = i ∧ j' = j ∧ src' = src ∧ dst' = dst ∧ c' = c.
Proof.
  intros (_ & Hi & Hj & Hs & Hd & Hc & _) (_ & Hi' & Hj' & Hs' & Hd' & Hc' & _).
  by simplify_eq.
Qed.

Lemma pour_count_bounds s f t i j src dst c :
  legal s f t i j src dst c →
  (1 ≤ pour_count s src dst c ≤ length src)%nat ∧
  Z.of_nat (pour_count s src dst c) =
    Z.min (run_length c (reverse src)) (tube_capacity s - Py.len dst).
Proof.
  intros (_ & _ & _ & _ & _ & Hc & Hcap & _).
  destruct (top_run_split c src Hc) as (Hk & _). unfold pour_count. lia.
Qed.

Lemma pour_legal s f t i j src dst c :
  legal s f t i j src dst c →
  pour s f t =
    Ok (true, set_moves (set_tubes s (poured_tubes s i j src dst c))
                        (moves s ++ [(f, t)])).
Proof.
  intros Hl. pose proof (can_pour_legal _ _ _ _ _ _ _ _ Hl) as Hcp.
  destruct (pour_count_bounds _ _ _ _ _ _ _ _ Hl) as (Hm & Hmz).
  destruct Hl as (Hne & Hi & Hj & Hsrc & Hdst & Hc & Hcap & Htop).
  unfold pour. rewrite Hcp. simpl.
  assert (Py.getitem (tubes s) f = Ok src) as -> by (apply getitem_Ok; eauto).
  simpl. apply getitem_last in Hc as ->. simpl.
  assert (Py.getitem (tubes s) t = Ok dst) as -> by (apply getitem_Ok; eauto).
  simpl. rewrite <-Hmz.
  rewrite slice_to_neg, slice_from_neg by done.
  unfold Py.setitem at 2. rewrite Hi. simpl.
  set (m := pour_count s src dst c) in *.
  match goal with |- Py.getitem ?T t ≫= _ = _ => set (tubes1 := T) end.
  assert (Py.getitem tubes1 t =
          Ok (if decide (i = j) then take (length src - m) src else dst)) as ->.
  { apply getitem_Ok. exists j. unfold tubes1. rewrite length_insert.
    split; [done|]. apply lookup_lt_Some in Hsrc as Hlt. case_decide.
    - subst j. by rewrite list_lookup_insert_eq.
    - by rewrite list_lookup_insert_ne. }
  simpl. unfold Py.setitem, tubes1. rewrite length_insert, Hj. simpl.
  done.
Qed.

(** A negative subscript can name the tube that a non-negative one names.
    [can_pour] compares the subscripts, not the tubes, so such a pair is
    accepted, and the tube receives back the units it gave.  The solver
    itself only pours between indices of [range(len(self.tubes))]. *)
Example pour_same_tube :
  pour (init [[1]]) 0 (-1) = Ok (true, set_moves (init [[1]]) [(0, -1)]).
Proof. reflexivity. Qed.

Lemma pour_refused s f t : can_pour s f t = Ok false → pour s f t = Ok (false, s).
Proof. intros H. unfold pour. by rewrite H. Qed.

Lemma pour_inv s f t b s' :
  pour s f t = Ok (b, s') →
  (b = false ∧ s' = s ∧ can_pour s f t = Ok false) ∨
  (b = true ∧ ∃ i j src dst c, legal s f t i j src dst c ∧
     s' = set_moves (set_tubes s (poured_tubes s i j src dst c))
                    (moves s ++ [(f, t)])).
Proof.
  intros H. destruct (can_pour s f t) as [[]|e] eqn:Hcp.
  - right. destruct (can_pour_true _ _ _ Hcp) as (i & j & src & dst & c & Hl).
    rewrite (pour_legal _ _ _ _ _ _ _ _ Hl) in H. simplify_eq.
    split; [done|]. by exists i, j, src, dst, c.
  - left. rewrite (pour_refused _ _ _ Hcp) in H. by simplify_eq.
  - unfold pour in H. by rewrite Hcp in H.
Qed.

Lemma poured_tubes_alias s i src dst c :
  tubes s !! i = Some src → poured_tubes s i i src dst c = tubes s.
Proof.
  intros Hsrc. unfold poured_tubes. rewrite decide_True by done.
  rewrite list_insert_insert_eq, take_drop. by apply list_insert_id.
Qed.

Lemma poured_tubes_length s i j src dst c :
  length (poured_tubes s i j src dst c) = length (tubes s).
Proof. unfold poured_tubes. by rewrite !length_insert. Qed.

Lemma poured_tubes_other s i j src dst c k :
  k ≠ i → k ≠ j → poured_tubes s i j src dst c !! k = tubes s !! k.
Proof.
  intros Hi Hj. unfold poured_tubes. by rewrite !list_lookup_insert_ne.
Qed.

Lemma poured_tubes_src s i j src dst c :
  tubes s !! i = Some src → i ≠ j →
  poured_tubes s i j src dst c !! i =
    Some (take (length src - pour_count s src dst c) src).
Proof.
  intros Hsrc Hne. unfold poured_tubes. apply lookup_lt_Some in Hsrc.
  rewrite list_lookup_insert_ne by done. by rewrite list_lookup_insert_eq.
Qed.

Lemma poured_tubes_dst s i j src dst c :
  tubes s !! j = Some dst → i ≠ j →
  poured_tubes s i j src dst c !! j =
    Some (dst ++ drop (length src - pour_count s src dst c) src).
Proof.
  intros Hdst Hne. unfold poured_tubes. apply lookup_lt_Some in Hdst.
  rewrite decide_False by done.
  by rewrite list_lookup_insert_eq by (by rewrite length_insert).
Qed.

(** ** Conservation of units and the capacity bound *)

Lemma app_swap_ends {A} (a b c : list A) : a ++ b ++ c ≡ₚ c ++ b ++ a.
Proof.
  rewrite (assoc_L (++) a b c), (comm (++) (a ++ b) c).
  apply Permutation_app_head, (comm (++)).
Qed.

Lemma concat_insert_perm {A} (l : list (list A)) i x y :
  l !! i = Some y → concat (<[i:=x]> l) ++ y ≡ₚ concat l ++ x.
Proof.
  intros Hy. apply lookup_lt_Some in Hy as Hlt.
  rewrite insert_take_drop by done.
  rewrite <-(take_drop_middle l i y Hy) at 3.
  rewrite !concat_app, !concat_cons, <-!(assoc_L (++)).
  apply Permutation_app_head, app_swap_ends.
Qed.

Lemma poured_tubes_perm s f t i j src dst c :
  legal s f t i j src dst c →
  concat (poured_tubes s i j src dst c) ≡ₚ concat (tubes s).
Proof.
  intros Hl. destruct (pour_count_bounds _ _ _ _ _ _ _ _ Hl) as (Hm & _).
  destruct Hl as (_ & _ & _ & Hsrc & Hdst & _).
  destruct (decide (i = j)) as [<-|Hne]; [by rewrite poured_tubes_alias|].
  unfold poured_tubes. rewrite decide_False by done.
  set (m := pour_count s src dst c) in *.
  set (kept := take (length src - m) src).
  set (poured := drop (length src - m) src).
  set (tubes1 := <[i:=kept]> (tubes s)).
  assert (tubes1 !! j = Some dst) as Hdst1
    by (unfold tubes1; by rewrite list_lookup_insert_ne).
  pose proof (concat_insert_perm tubes1 j (dst ++ poured) dst Hdst1) as H2.
  pose proof (concat_insert_perm (tubes s) i kept src Hsrc) as H1.
  fold tubes1 in H1.
  assert (src = kept ++ poured) as Hsp by (symmetry; apply take_drop).
  clearbody tubes1 kept poured.
  apply (Permutation_app_inv_r (dst ++ src)).
  rewrite (assoc_L (++) _ dst src), H2.
  rewrite <-(assoc_L (++) (concat tubes1)).
  rewrite (comm (++) (dst ++ poured) src).
  rewrite (assoc_L (++) (concat tubes1) src), H1.
  rewrite <-!(assoc_L (++)). apply Permutation_app_head.
  subst src. rewrite (assoc_L (++) dst kept), (comm (++) dst kept).
  by rewrite <-(assoc_L (++)).
Qed.

Lemma poured_tubes_capacity s f t i j src dst c :
  legal s f t i j src dst c →
  Forall (fun u => Py.len u ≤ tube_capacity s) (tubes s) →
  Forall (fun u => Py.len u ≤ tube_capacity s) (poured_tubes s i j src dst c).
Proof.
  intros Hl Hall. destruct (pour_count_bounds _ _ _ _ _ _ _ _ Hl) as (Hm & Hmz).
  destruct Hl as (_ & _ & _ & Hsrc & Hdst & _).
  destruct (decide (i = j)) as [<-|Hne]; [by rewrite poured_tubes_alias|].
  pose proof (Forall_lookup_1 _ _ _ _ Hall Hsrc) as Hs. simpl in Hs.
  unfold poured_tubes. rewrite decide_False by done.
  apply Forall_insert; [apply Forall_insert; [done|]|].
  - unfold Py.len in *. rewrite length_take. lia.
  - unfold Py.len in *. rewrite length_app, length_drop. lia.
Qed.

(** ** The pour engine: refusal, frame, run pour, invariants *)

(** C4. A refused pour changes nothing: whenever [can_pour] answers [False]
    for a pair of subscripts, [pour] returns [False] and the state after the
    call (all tubes, the move trace and every other attribute) is the state
    before it. *)
Theorem pour_refusal_no_mutation (s : State) (from_index to_index : Z) :
  can_pour s from_index to_index = Ok false →
  pour s from_index to_index = Ok (false, s).
Proof. apply pour_refused. Qed.

Lemma pour_refusal_no_mutation_witness :
  can_pour (init [[1; 2]; [3]]) 0 1 = Ok false ∧
  pour (init [[1; 2]; [3]]) 0 1 = Ok (false, init [[1; 2]; [3]]).
Proof.
  split; [reflexivity|]. apply pour_refusal_no_mutation. reflexivity.
Defined.

(** C10. Frame of a successful pour: when [can_pour] holds, [pour] returns
    [True]; only the slots that the two subscripts resolve to can change;
    the number of tubes, the original configuration, [total_colors],
    [empty_tubes_count], [tube_capacity] and the visited set stay as they
    were, and the move trace grows by the single pair [(from, to)] at its
    end. *)
Theorem pour_frame (s : State) (from_index to_index : Z) :
  can_pour s from_index to_index = Ok true →
  ∃ s', pour s from_index to_index = Ok (true, s') ∧
    original_tubes s' = original_tubes s ∧
    total_colors s' = total_colors s ∧
    empty_tubes_count s' = empty_tubes_count s ∧
    tube_capacity s' = tube_capacity s ∧
    visited_states s' = visited_states s ∧
    moves s' = moves s ++ [(from_index, to_index)] ∧
    length (tubes s') = length (tubes s) ∧
    ∀ k : nat,
      Py.index (length (tubes s)) from_index ≠ Some k →
      Py.index (length (tubes s)) to_index ≠ Some k →
      tubes s' !! k = tubes s !! k.
Proof.
  intros Hcp.
  destruct (can_pour_true _ _ _ Hcp) as (i & j & src & dst & c & Hl).
  eexists. split; [by apply (pour_legal _ _ _ _ _ _ _ _ Hl)|]. simpl.
  repeat split; try done.
  - apply poured_tubes_length.
  - destruct Hl as (_ & Hi & Hj & _). intros k Hki Hkj.
    apply poured_tubes_other; congruence.
Qed.

Lemma pour_frame_witness :
  can_pour (init [[1; 2; 2]; [2]; [3]]) 0 1 = Ok true ∧
  ∃ s', pour (init [[1; 2; 2]; [2]; [3]]) 0 1 = Ok (true, s') ∧
    tubes s' !! 2%nat = Some [3] ∧ moves s' = [(0, 1)].
Proof.
  split; [reflexivity|].
  destruct (pour_frame (init [[1; 2; 2]; [2]; [3]]) 0 1 eq_refl)
    as (s' & Hp & _ & _ & _ & _ & _ & Hm & _ & Hk).
  exists s'. split; [exact Hp|]. split; [|exact Hm].
  apply (Hk 2%nat); vm_compute; discriminate.
Defined.

(** C1. Run pour. Let the subscripts [from] and [to] designate two
    different tubes (for subscripts in [range(len(tubes))] this is
    [from != to]), let the source be [rest] with [k >= 1] units of colour
    [c] on top, the unit under them (if any) of another colour, and let
    [can_pour] hold.  Then [pour] returns [True] and moves
    [min(k, capacity - len(destination))] units of [c] from the top of the
    source onto the top of the destination.  When the destination has room
    for all [k], exactly [k] units move and the source is left as [rest]:
    empty, or with a top unit of another colour than [c]. *)
Theorem pour_run (s : State) (from_index to_index : Z) (i j : nat)
    (rest dst : tube) (c : color) (k : nat) :
  Py.index (length (tubes s)) from_index = Some i →
  Py.index (length (tubes s)) to_index = Some j →
  i ≠ j →
  tubes s !! i = Some (rest ++ replicate k c) →
  (1 ≤ k)%nat →
  (∀ x, last rest = Some x → x ≠ c) →
  tubes s !! j = Some dst →
  can_pour s from_index to_index = Ok true →
  let m := Z.to_nat (Z.min (Z.of_nat k) (tube_capacity s - Py.len dst)) in
  ∃ s', pour s from_index to_index = Ok (true, s') ∧
    (1 ≤ m ≤ k)%nat ∧
    tubes s' !! i = Some (rest ++ replicate (k - m) c) ∧
    tubes s' !! j = Some (dst ++ replicate m c) ∧
    (Py.len dst + Z.of_nat k ≤ tube_capacity s →
       tubes s' !! i = Some rest ∧
       tubes s' !! j = Some (dst ++ replicate k c) ∧
       (rest = [] ∨ ∃ x, last rest = Some x ∧ x ≠ c)).
Proof.
  intros Hi Hj Hne Hsrc Hk Hrest Hdst Hcp m.
  destruct (can_pour_true _ _ _ Hcp) as (i' & j' & src' & dst' & c' & Hl).
  pose proof Hl as (_ & Hi' & Hj' & Hsrc' & Hdst' & Hc' & Hcap & _).
  assert (i' = i) as -> by congruence. assert (j' = j) as -> by congruence.
  assert (src' = rest ++ replicate k c) as -> by congruence.
  assert (dst' = dst) as -> by congruence.
  assert (c' = c) as ->.
  { destruct k as [|k]; [lia|].
    rewrite replicate_S_end, (assoc_L (++)), last_snoc in Hc'. congruence. }
  assert (run_length c (reverse (rest ++ replicate k c)) = Z.of_nat k) as Hrun.
  { rewrite reverse_app, reverse_replicate. apply run_length_replicate.
    intros x. rewrite head_reverse. apply Hrest. }
  assert (pour_count s (rest ++ replicate k c) dst c = m) as Hpc
    by (unfold pour_count; by rewrite Hrun).
  assert (1 ≤ m ≤ k)%nat as Hm by (unfold m; lia).
  assert (take (length (rest ++ replicate k c) - m) (rest ++ replicate k c)
          = rest ++ replicate (k - m) c) as Htake.
  { rewrite length_app, length_replicate.
    replace (length rest + k - m)%nat with (length rest + (k - m))%nat by lia.
    rewrite take_app_add, take_replicate. do 2 f_equal. lia. }
  assert (drop (length (rest ++ replicate k c) - m) (rest ++ replicate k c)
          = replicate m c) as Hdrop.
  { rewrite length_app, length_replicate.
    replace (length rest + k - m)%nat with (length rest + (k - m))%nat by lia.
    rewrite drop_app_add, drop_replicate. f_equal. lia. }
  eexists. split; [by apply (pour_legal _ _ _ _ _ _ _ _ Hl)|]. simpl.
  rewrite poured_tubes_src, poured_tubes_dst by done.
  rewrite Hpc, Htake, Hdrop. repeat split; try done; try lia.
  - replace m with k by (unfold m; lia).
    by rewrite Nat.sub_diag, app_nil_r.
  - by replace m with k by (unfold m; lia).
  - destruct (last rest) as [x|] eqn:Hx.
    + right. exists x. split; [done|]. by apply Hrest.
    + left. by apply last_None.
Qed.

Lemma pour_run_witness :
  ∃ s', pour (init [[1; 2; 2]; [2]; [3]]) 0 1 = Ok (true, s') ∧
    tubes s' !! 0%nat = Some [1] ∧ tubes s' !! 1%nat = Some [2; 2; 2].
Proof.
  destruct (pour_run (init [[1; 2; 2]; [2]; [3]]) 0 1 0 1 [1] [2] 2 2)
    as (s' & Hp & _ & _ & _ & Hk); try reflexivity.
  - discriminate.
  - simpl. lia.
  - intros x [= <-]. discriminate.
  - exists s'. split; [exact Hp|].
    destruct Hk as (H0 & H1 & _); [vm_compute; discriminate|].
    split; [exact H0 | exact H1].
Defined.

(** C2. Invariants of the pour engine: in every state reached from an
    initial configuration by any sequence of [pour] calls the units in the
    tubes are a rearrangement of the units of that configuration (the same
    multiset), and, the configuration having no tube longer than the
    capacity 4, no tube is longer than 4. *)
Theorem pour_invariants (cfg : list tube) (s : State) :
  reachable cfg s →
  concat (tubes s) ≡ₚ concat cfg ∧
  tube_capacity s = 4 ∧
  (Forall (fun u => Py.len u ≤ 4) cfg → Forall (fun u => Py.len u ≤ 4) (tubes s)).
Proof.
  induction 1 as [|s f t b s' Hr (IHp & IHc & IHf) Hp]; [done|].
  apply pour_inv in Hp as [(-> & -> & _)|(-> & i & j & src & dst & c & Hl & ->)];
    [done|]. simpl.
  split; [by rewrite (poured_tubes_perm _ _ _ _ _ _ _ _ Hl)|].
  split; [done|]. intros Hcfg. specialize (IHf Hcfg).
  rewrite <-IHc in IHf |- *. by apply (poured_tubes_capacity _ f t).
Qed.

Lemma pour_invariants_witness :
  ∃ s', pour (init [[1; 2; 2]; [2]; [3]]) 0 1 = Ok (true, s') ∧
    concat (tubes s') ≡ₚ [1; 2; 2; 2; 3] ∧
    Forall (fun u => Py.len u ≤ 4) (tubes s').
Proof.
  eexists. split; [reflexivity|].
  destruct (pour_invariants [[1; 2; 2]; [2]; [3]]
              (set_moves (set_tubes (init [[1; 2; 2]; [2]; [3]])
                                    [[1]; [2; 2; 2]; [3]]) [(0, 1)]))
    as (Hperm & _ & Hcap).
  - apply (reach_pour _ (init [[1; 2; 2]; [2]; [3]]) 0 1 true);
      [apply reach_init | reflexivity].
  - split; [exact Hperm|]. apply Hcap.
    repeat constructor; vm_compute; discriminate.
Defined.

(** ** Solved detection *)

Lemma single_color_cons c rest :
  single_color (c :: rest) ↔ Forall (fun x => x = c) rest.
Proof.
  unfold single_color. split.
  - intros H. apply Forall_cons_1 in H as [H _].
    apply Forall_cons_1 in H as [_ H].
    eapply Forall_impl; [exact H|]. by intros x ->.
  - intros H. rewrite Forall_forall in H.
    assert (∀ x, x ∈ c :: rest → x = c) as Hall.
    { intros x [->|Hx]%elem_of_cons; [done|by apply H]. }
    apply Forall_forall. intros x Hx. apply Forall_forall. intros y Hy.
    by rewrite (Hall x Hx), (Hall y Hy).
Qed.

Lemma forallb_eq_color c (rest : list Z) :
  forallb (fun x => bool_decide (x = c)) rest = true ↔ Forall (fun x => x = c) rest.
Proof.
  induction rest as [|x rest IH]; simpl.
  - split; [constructor|done].
  - rewrite andb_true_iff, bool_decide_eq_true, IH, Forall_cons. done.
Qed.

Lemma is_solved_loop_spec cap ts completed empty :
  0 < cap →
  match is_solved_loop cap ts completed empty with
  | Some (completed', empty') =>
      Forall (fun t => t = [] ∨ full_single_color cap t) ts ∧
      completed' = (completed + count_completed cap ts)%nat ∧
      empty' = (empty + count_empty ts)%nat
  | None => ¬ Forall (fun t => t = [] ∨ full_single_color cap t) ts
  end.
Proof.
  intros Hcap. revert completed empty.
  induction ts as [|t ts IH]; intros completed empty; simpl.
  { unfold count_completed, count_empty. simpl. split; [constructor|lia]. }
  unfold count_completed, count_empty in *.
  case_bool_decide as Hlen.
  - apply len_zero in Hlen as ->.
    specialize (IH completed (S empty)).
    destruct (is_solved_loop _ _ _ _) as [[c' e']|].
    + destruct IH as (Hall & -> & ->). split; [constructor; auto|].
      rewrite filter_cons_False.
      2:{ intros [Hl _]. unfold Py.len in Hl. simpl in Hl. lia. }
      rewrite filter_cons_True by done. simpl. lia.
    + intros Hall. apply Forall_cons_1 in Hall as [_ Hall]. by apply IH.
  - assert (t ≠ []) as Hne by (by rewrite <-len_zero).
    case_bool_decide as Hfull.
    { intros Hall. apply Forall_cons_1 in Hall as [[?|[? _]] _]; done. }
    destruct t as [|color rest]; [done|].
    destruct (forallb _ rest) eqn:Hcol.
    + apply forallb_eq_color, single_color_cons in Hcol.
      assert (full_single_color cap (color :: rest)) as Hfsc
        by (split; done).
      specialize (IH (S completed) empty).
      destruct (is_solved_loop _ _ _ _) as [[c' e']|].
      * destruct IH as (Hall & -> & ->). split; [constructor; auto|].
        rewrite filter_cons_True by done.
        rewrite (filter_cons_False (fun t : list Z => t = [])) by done.
        simpl. lia.
      * intros Hall. apply Forall_cons_1 in Hall as [_ Hall]. by apply IH.
    + intros Hall. apply Forall_cons_1 in Hall as [[?|[_ Hsc]] _]; [done|].
      apply single_color_cons, forallb_eq_color in Hsc. congruence.
Qed.

(** C3. Solved detection is exact: [is_solved] answers [True] exactly when
    every tube is empty or completed (at capacity, all units of one
    colour), the number of completed tubes is [total_colors] and the number
    of empty tubes is [empty_tubes_count].  One empty tube too many, or a
    completed colour too few, and the answer is [False].  The capacity is
    positive, as the constructor sets it. *)
Theorem is_solved_exact (s : State) :
  0 < tube_capacity s →
  is_solved s = true ↔
    Forall (fun t => t = [] ∨ full_single_color (tube_capacity s) t) (tubes s) ∧
    count_completed (tube_capacity s) (tubes s) = total_colors s ∧
    count_empty (tubes s) = empty_tubes_count s.
Proof.
  intros Hcap. unfold is_solved.
  pose proof (is_solved_loop_spec (tube_capacity s) (tubes s) 0 0 Hcap) as H.
  destruct (is_solved_loop _ _ _ _) as [[c e]|].
  - destruct H as (Hall & -> & ->). simpl.
    rewrite andb_true_iff, !bool_decide_eq_true. tauto.
  - split; [done|]. by intros (Hall & _).
Qed.

Lemma is_solved_exact_witness :
  is_solved (init [[1; 1; 1; 1]; []; [2; 2; 2; 2]]) = true ∧
  count_completed 4 [[1; 1; 1; 1]; []; [2; 2; 2; 2]] = 2%nat ∧
  is_solved (init [[1; 1; 1; 1]; []; [2; 2; 2; 1]]) = false.
Proof.
  split; [reflexivity|]. split.
  - assert (0 < tube_capacity (init [[1; 1; 1; 1]; []; [2; 2; 2; 2]])) as Hcap
      by (simpl; lia).
    destruct (proj1 (is_solved_exact _ Hcap) eq_refl) as (_ & Hc & _).
    exact Hc.
  - reflexivity.
Defined.

(** The attributes that [is_solved] compares with are those of the original
    configuration in every reachable state. *)
Lemma count_total_colors_distinct cfg : _count_total_colors cfg = distinct_colors cfg.
Proof.
  unfold _count_total_colors, distinct_colors.
  assert (∀ (X : gset Z),
    foldl (fun (acc : gset Z) t => acc ∪ list_to_set t) X cfg
    = X ∪ list_to_set (concat cfg)) as Hfold.
  { induction cfg as [|t cfg IH]; intros X; simpl.
    - by rewrite (right_id_L ∅ (∪)).
    - rewrite IH, list_to_set_app_L. by rewrite (assoc_L (∪)). }
  rewrite Hfold, (left_id_L ∅ (∪)).
  assert (list_to_set (concat cfg) =@{gset Z} list_to_set (remove_dups (concat cfg)))
    as -> by (apply set_eq; intros x;
              by rewrite !elem_of_list_to_set, elem_of_remove_dups).
  apply size_list_to_set, NoDup_remove_dups.
Qed.

Lemma count_empty_tubes_eq cfg : _count_empty_tubes cfg = count_empty cfg.
Proof.
  unfold _count_empty_tubes, count_empty. f_equal.
  apply list_filter_iff. intros t. apply len_zero.
Qed.

Lemma reachable_attributes cfg s :
  reachable cfg s →
  original_tubes s = cfg ∧ tube_capacity s = 4 ∧
  total_colors s = distinct_colors cfg ∧
  empty_tubes_count s = count_empty cfg.
Proof.
  induction 1 as [|s f t b s' Hr IH Hp].
  - simpl. by rewrite count_total_colors_distinct, count_empty_tubes_eq.
  - apply pour_inv in Hp as [(-> & -> & _)|(-> & i & j & src & dst & c & Hl & ->)];
      done.
Qed.

(** C9 does not hold as stated: after the pour of the two-tube example,
    [is_solved] is not [True]. *)
Lemma example_solved_refuted :
  ¬ (can_pour example_state 0 1 = Ok true ∧
     ∃ s', pour example_state 0 1 = Ok (true, s') ∧
           tubes s' = [[]; [1; 1]] ∧ is_solved s' = true).
Proof.
  intros (_ & s' & Hp & _ & Hs).
  vm_compute in Hp. injection Hp as <-. vm_compute in Hs. discriminate.
Qed.

(** C9, amended. For the tubes [[1], [1]] with capacity 2 (one distinct
    colour, zero required empty tubes) [can_pour(0, 1)] holds and
    [pour(0, 1)] succeeds, leaving tube 0 empty and tube 1 equal to
    [1, 1]; [is_solved] then returns [False]: tube 1 is completed, but the
    state has one empty tube where [empty_tubes_count] asks for none. *)
Theorem example_pour_not_solved :
  total_colors example_state = 1%nat ∧
  empty_tubes_count example_state = 0%nat ∧
  can_pour example_state 0 1 = Ok true ∧
  ∃ s', pour example_state 0 1 = Ok (true, s') ∧
        tubes s' = [[]; [1; 1]] ∧
        count_completed (tube_capacity s') (tubes s') = total_colors s' ∧
        count_empty (tubes s') = 1%nat ∧
        is_solved s' = false.
Proof.
  split; [reflexivity|]. split; [reflexivity|]. split; [reflexivity|].
  eexists. split; [reflexivity|]. repeat split.
Qed.

(** ** The fingerprint *)

Section SortedFacts.
Context {A : Type} (le : A → A → bool).
Hypothesis le_total : ∀ x y, le x y = true ∨ le y x = true.
Hypothesis le_trans : ∀ x y z, le x y = true → le y z = true → le x z = true.

Lemma insert_sorted_perm x l : Py.insert_sorted le x l ≡ₚ x :: l.
Proof.
  induction l as [|y l IH]; simpl; [done|].
  destruct (le x y); [done|]. by rewrite IH, Permutation_swap.
Qed.

Lemma sorted_perm l : Py.sorted le l ≡ₚ l.
Proof.
  induction l as [|x l IH]; simpl; [done|].
  unfold Py.sorted in *. simpl. by rewrite insert_sorted_perm, IH.
Qed.

Lemma insert_sorted_sorted x l :
  StronglySorted (fun a b => le a b = true) l →
  StronglySorted (fun a b => le a b = true) (Py.insert_sorted le x l).
Proof.
  induction 1 as [|y l Hl IH Hy]; simpl.
  - repeat constructor.
  - destruct (le x y) eqn:Hxy.
    + constructor; [by constructor|]. constructor; [done|].
      eapply Forall_impl; [exact Hy|]. intros z Hz. by eapply le_trans.
    + constructor; [done|]. rewrite insert_sorted_perm.
      constructor; [|done]. destruct (le_total x y); [congruence|done].
Qed.

Lemma sorted_sorted l :
  StronglySorted (fun a b => le a b = true) (Py.sorted le l).
Proof.
  induction l as [|x l IH]; simpl; [constructor|].
  by apply insert_sorted_sorted.
Qed.
End SortedFacts.

Lemma string_leb_total (x y : string) : String.leb x y = true ∨ String.leb y x = true.
Proof.
  destruct (total String.le x y) as [H|H]; [left|right];
    by apply Is_true_true.
Qed.

Lemma string_leb_trans (x y z : string) :
  String.leb x y = true → String.leb y z = true → String.leb x z = true.
Proof.
  rewrite <-!Is_true_true. apply (transitivity (R:=String.le)).
Qed.

Lemma string_leb_antisym : AntiSymm (=) (fun x y : string => String.leb x y = true).
Proof.
  intros x y Hxy Hyx. apply (anti_symm String.le); by apply Is_true_true.
Qed.

(** C5. The fingerprint is canonical: it is the [|]-join of the per-tube
    strings in sorted (lexicographic) order, so two states whose tubes are a
    permutation of each other (in particular, states that differ by which
    empty or identical tube sits at which index) have the same
    fingerprint. *)
Theorem fingerprint_canonical (s1 s2 : State) :
  tubes s1 ≡ₚ tubes s2 →
  ∃ l : list string,
    StronglySorted (fun x y => String.leb x y = true) l ∧
    l ≡ₚ tube_string <$> tubes s1 ∧
    get_state_hash s1 = Py.join "|" l ∧
    get_state_hash s2 = Py.join "|" l.
Proof.
  intros Hperm. exists (Py.sorted String.leb (tube_string <$> tubes s1)).
  pose proof string_leb_total as Htot. pose proof string_leb_trans as Htr.
  split; [by apply sorted_sorted|]. split; [apply sorted_perm|].
  split; [done|]. unfold get_state_hash. f_equal.
  apply (StronglySorted_unique (fun x y => String.leb x y = true)
           (AntiSymm0 := string_leb_antisym)).
  - by apply sorted_sorted.
  - by apply sorted_sorted.
  - by rewrite !sorted_perm, Hperm.
Qed.

Lemma fingerprint_canonical_witness :
  get_state_hash (init [[1; 2]; []; [3]]) = get_state_hash (init [[]; [3]; [1; 2]]).
Proof.
  destruct (fingerprint_canonical (init [[1; 2]; []; [3]]) (init [[]; [3]; [1; 2]]))
    as (l & _ & _ & H1 & H2).
  - simpl. eapply perm_trans; [apply perm_swap | apply perm_skip, perm_swap].
  - rewrite H1, H2. reflexivity.
Defined.

(** ** Subscripts of [range(len(self.tubes))] never raise *)

Lemma in_range_lookup s i :
  in_range s i →
  Py.index (length (tubes s)) i = Some (Z.to_nat i) ∧
  ∃ u, tubes s !! Z.to_nat i = Some u ∧ Py.getitem (tubes s) i = Ok u.
Proof.
  unfold in_range, Py.len. intros Hi.
  pose proof (index_range _ _ Hi) as Hidx. split; [done|].
  by apply getitem_index.
Qed.

Lemma lookup_in_range s (k : nat) u :
  tubes s !! k = Some u → in_range s (Z.of_nat k).
Proof. intros H%lookup_lt_Some. unfold in_range, Py.len. lia. Qed.

Lemma elem_of_range s i : i ∈ Py.range (Py.len (tubes s)) ↔ in_range s i.
Proof. unfold Py.range, in_range. rewrite elem_of_seqZ. lia. Qed.

Lemma can_pour_in_range s f t :
  in_range s f → in_range s t → ∃ b, can_pour s f t = Ok b.
Proof.
  intros (_ & src & _ & Hsrc)%in_range_lookup (_ & dst & _ & Hdst)%in_range_lookup.
  unfold can_pour. case_bool_decide; [by eexists|].
  rewrite Hsrc. simpl. case_bool_decide as Hs; [by eexists|].
  rewrite Hdst. simpl. case_bool_decide; [by eexists|].
  rewrite len_zero in Hs.
  destruct (getitem_last_nonempty src Hs) as (c & _ & ->). simpl.
  case_bool_decide as Hd.
  - assert (dst ≠ []) as Hne by (intros ->; unfold Py.len in Hd; simpl in Hd; lia).
    destruct (getitem_last_nonempty dst Hne) as (c' & _ & ->). simpl. by eexists.
  - simpl. by eexists.
Qed.

Lemma can_pour_not_true s f t :
  in_range s f → in_range s t → can_pour s f t ≠ Ok true → can_pour s f t = Ok false.
Proof.
  intros Hf Ht Hn. destruct (can_pour_in_range s f t Hf Ht) as ([] & Hb); done.
Qed.

Lemma can_pour_true_in_range s f t :
  in_range s f → in_range s t → can_pour s f t = Ok true →
  ∃ src dst c, legal s f t (Z.to_nat f) (Z.to_nat t) src dst c.
Proof.
  intros (Hf & _)%in_range_lookup (Ht & _)%in_range_lookup Hcp.
  destruct (can_pour_true _ _ _ Hcp) as (i & j & src & dst & c & Hl).
  pose proof Hl as (_ & Hi & Hj & _).
  assert (i = Z.to_nat f) as -> by congruence.
  assert (j = Z.to_nat t) as -> by congruence. eauto.
Qed.

(** ** The backup move *)

Lemma backup_test_spec s f t c :
  in_range s f → in_range s t →
  ∃ b, backup_test s f t c = Ok b ∧
    (b = true ↔ can_pour s f t = Ok true ∧
                ∃ src, tubes s !! Z.to_nat f = Some src ∧ last src = Some c).
Proof.
  intros Hf Ht. unfold backup_test.
  destruct (can_pour_in_range s f t Hf Ht) as (b & Hb).
  case_bool_decide as Hne.
  2:{ exists false. split; [done|]. split; [done|]. intros (Hcp & _).
      apply can_pour_true in Hcp as (? & ? & ? & ? & ? & ? & _). done. }
  rewrite Hb. simpl. destruct b; simpl.
  2:{ exists false. split; [done|]. split; [done|]. by intros (? & _). }
  destruct (can_pour_true_in_range _ _ _ Hf Ht Hb) as (src & dst & c' & Hl).
  destruct Hl as (_ & _ & _ & Hsrc & _ & Hc & _).
  apply in_range_lookup in Hf as (_ & src' & Hsrc' & ->). simpl.
  assert (src' = src) as -> by congruence.
  assert (src ≠ []) as Hnil by (intros ->; done).
  rewrite bool_decide_eq_false_2 by done.
  apply getitem_last in Hc as Hg. rewrite Hg. simpl.
  eexists. split; [done|]. rewrite bool_decide_eq_true. split.
  - intros ->. split; [done|]. eauto.
  - intros (_ & src2 & Hs2 & Hl2). congruence.
Qed.

Lemma backup_source_spec s t c froms :
  in_range s t → Forall (in_range s) froms →
  ∃ r, backup_source s t c froms = Ok r ∧
    match r with
    | None => ∀ f, f ∈ froms →
        ¬ (can_pour s f t = Ok true ∧
           ∃ src, tubes s !! Z.to_nat f = Some src ∧ last src = Some c)
    | Some (f, t') =>
        t' = t ∧ in_range s f ∧ can_pour s f t = Ok true ∧
        ∃ src, tubes s !! Z.to_nat f = Some src ∧ last src = Some c
    end.
Proof.
  intros Ht. induction 1 as [|f froms Hf Hfroms IH]; simpl.
  { exists None. split; [done|]. by intros f ?%elem_of_nil. }
  destruct (backup_test_spec s f t c Hf Ht) as (b & -> & Hb). simpl.
  destruct b.
  - exists (Some (f, t)). split; [done|]. destruct Hb as [Hb _].
    destruct (Hb eq_refl) as (? & ?). done.
  - destruct IH as (r & -> & Hr). exists r. split; [done|].
    destruct r as [[f' t']|]; [done|].
    intros f' [->|Hin]%elem_of_cons; [|by apply Hr].
    intros H. apply Hb in H. done.
Qed.

Lemma elem_of_enumerate_from {A} (l : list A) k0 k x :
  (k, x) ∈ Py.enumerate_from k0 l ↔ ∃ i : nat, k = k0 + Z.of_nat i ∧ l !! i = Some x.
Proof.
  revert k0. induction l as [|y l IH]; intros k0; simpl.
  - split; [by intros ?%elem_of_nil | by intros (i & _ & ?)].
  - rewrite elem_of_cons, IH. split.
    + intros [[= -> ->]|(i & -> & Hi)].
      * exists 0%nat. split; [lia|done].
      * exists (S i). split; [lia|done].
    + intros ([|i] & -> & Hi); simpl in Hi.
      * left. simplify_eq. f_equal. lia.
      * right. exists i. split; [lia|done].
Qed.

Lemma elem_of_enumerate {A} (l : list A) k x :
  (k, x) ∈ Py.enumerate l ↔ 0 ≤ k ∧ l !! Z.to_nat k = Some x.
Proof.
  unfold Py.enumerate. rewrite elem_of_enumerate_from. split.
  - intros (i & -> & Hi). split; [lia|]. by rewrite Z.add_0_l, Nat2Z.id.
  - intros (Hk & Hx). exists (Z.to_nat k). split; [lia|done].
Qed.

Lemma backup_first_pass_spec s ets :
  tube_capacity s ≠ 1 →
  (∀ k u, (k, u) ∈ ets → 0 ≤ k ∧ tubes s !! Z.to_nat k = Some u) →
  ∃ r, backup_first_pass s ets = Ok r ∧
    match r with
    | None => ∀ f t u, (t, u) ∈ ets → in_range s f → ¬ almost_complete_move s f t
    | Some (f, t) => almost_complete_move s f t
    end.
Proof.
  intros Hcap. induction ets as [|[t u] ets IH]; intros Hets; simpl.
  { exists None. split; [done|]. by intros f t u ?%elem_of_nil. }
  destruct (Hets t u) as (Ht0 & Hu); [by left|].
  assert (in_range s t) as Ht.
  { apply lookup_lt_Some in Hu. unfold in_range, Py.len. lia. }
  destruct IH as (r & Hr & Hspec).
  { intros k v Hin. apply Hets. by right. }
  assert (∀ f, in_range s f → almost_complete_move s f t →
          ∃ c, Py.len u = tube_capacity s - 1 ∧ Forall (fun x => x = c) u ∧
               Py.getitem u 0 = Ok c ∧
               can_pour s f t = Ok true ∧
               ∃ src, tubes s !! Z.to_nat f = Some src ∧ last src = Some c)
    as Hinv.
  { intros f Hf (_ & _ & Hcp & dst & src & c & Hdst & Hlen & Hall & Hsrc & Hlast).
    assert (dst = u) as -> by congruence. exists c.
    repeat split; try done; [|eauto].
    destruct u as [|x u]; [unfold Py.len in Hlen; simpl in Hlen; lia|].
    apply Forall_cons_1 in Hall as [-> _]. reflexivity. }
  case_bool_decide as Hlen; simpl.
  2:{ rewrite Hr. exists r. split; [done|]. destruct r as [[f' t']|]; [done|].
      intros f t' u' [[= -> ->]|Hin]%elem_of_cons Hf; [|by eapply Hspec].
      intros (c & ? & _)%Hinv; done. }
  destruct u as [|c u]; [unfold Py.len in Hlen; simpl in Hlen; lia|].
  change (Py.getitem (c :: u) 0) with (Ok (A:=Z) c). simpl.
  rewrite bool_decide_eq_true_2 by done. simpl.
  destruct (forallb _ u) eqn:Hcol.
  2:{ rewrite Hr. exists r. split; [done|]. destruct r as [[f' t']|]; [done|].
      intros f t' u' [[= -> ->]|Hin]%elem_of_cons Hf; [|by eapply Hspec].
      intros (c' & _ & Hall & Hg & _)%Hinv; [|done].
      injection Hg as <-. apply Forall_cons_1 in Hall as [_ Hall].
      apply forallb_eq_color in Hall. congruence. }
  apply forallb_eq_color in Hcol.
  destruct (backup_source_spec s t c (Py.range (Py.len (tubes s))) Ht)
    as (r' & -> & Hr').
  { apply Forall_forall. intros f. by rewrite elem_of_range. }
  destruct r' as [[f t']|].
  - exists (Some (f, t')). split; [done|].
    destruct Hr' as (-> & Hf & Hcp & src & Hsrc & Hlast).
    repeat split; try done; try apply Hf; try apply Ht.
    exists (c :: u), src, c. repeat split; try done. by constructor.
  - rewrite Hr. exists r. split; [done|]. destruct r as [[f' t']|]; [done|].
    intros f t' u' [[= -> ->]|Hin]%elem_of_cons Hf; [|by eapply Hspec].
    intros (c' & _ & _ & Hg & Hcp & Hsrc)%Hinv; [|done].
    injection Hg as <-. apply (Hr' f); [by apply elem_of_range|done].
Qed.

Lemma first_legal_from_spec s f tos :
  in_range s f → Forall (in_range s) tos →
  ∃ r, first_legal_from s f tos = Ok r ∧
    match r with
    | None => ∀ t, t ∈ tos → can_pour s f t = Ok false
    | Some (f', t) =>
        f' = f ∧ can_pour s f t = Ok true ∧
        ∃ pre post, tos = pre ++ t :: post ∧
                    ∀ t', t' ∈ pre → can_pour s f t' = Ok false
    end.
Proof.
  intros Hf. induction 1 as [|t tos Ht Htos IH]; simpl.
  { exists None. split; [done|]. by intros t ?%elem_of_nil. }
  destruct (can_pour_in_range s f t Hf Ht) as (b & Hb). rewrite Hb. simpl.
  destruct b.
  - exists (Some (f, t)). split; [done|]. repeat split; try done.
    exists [], tos. split; [done|]. by intros t' ?%elem_of_nil.
  - destruct IH as (r & -> & Hr). exists r. split; [done|].
    destruct r as [[f' t']|].
    + destruct Hr as (-> & Hcp & pre & post & -> & Hpre).
      repeat split; try done. exists (t :: pre), post. split; [done|].
      intros t2 [->|Hin]%elem_of_cons; [done|by apply Hpre].
    + intros t' [->|Hin]%elem_of_cons; [done|by apply Hr].
Qed.

Lemma first_legal_spec s froms tos :
  Forall (in_range s) froms → Forall (in_range s) tos →
  ∃ r, first_legal s froms tos = Ok r ∧
    match r with
    | None => ∀ f t, f ∈ froms → t ∈ tos → can_pour s f t = Ok false
    | Some (f, t) =>
        can_pour s f t = Ok true ∧
        ∃ pre post pre' post',
          froms = pre ++ f :: post ∧ tos = pre' ++ t :: post' ∧
          (∀ f' t', f' ∈ pre → t' ∈ tos → can_pour s f' t' = Ok false) ∧
          (∀ t', t' ∈ pre' → can_pour s f t' = Ok false)
    end.
Proof.
  intros Hfroms Htos. induction Hfroms as [|f froms Hf Hfroms IH]; simpl.
  { exists None. split; [done|]. by intros f t ?%elem_of_nil. }
  destruct (first_legal_from_spec s f tos Hf Htos) as (r & -> & Hr). simpl.
  destruct r as [[f' t]|].
  - destruct Hr as (-> & Hcp & pre' & post' & -> & Hpre').
    exists (Some (f, t)). split; [done|]. split; [done|].
    exists [], froms, pre', post'. repeat split; try done.
    by intros f' t' ?%elem_of_nil.
  - destruct IH as (r & -> & Hr'). exists r. split; [done|].
    destruct r as [[f' t']|].
    + destruct Hr' as (Hcp & pre & post & pre' & post' & -> & -> & Hpre & Hpre').
      split; [done|]. exists (f :: pre), post, pre', post'.
      repeat split; try done.
      intros f2 t2 [->|Hin]%elem_of_cons Ht2; [by apply Hr|by apply Hpre].
    + intros f2 t2 [->|Hin]%elem_of_cons Ht2; [by apply Hr|by apply Hr'].
Qed.

Lemma range_split n pre t post :
  Py.range n = pre ++ t :: post →
  0 ≤ t < n ∧ ∀ t', 0 ≤ t' < t → t' ∈ pre.
Proof.
  unfold Py.range. intros Hsplit.
  assert (seqZ 0 n !! length pre = Some t) as Ht
    by (rewrite Hsplit; apply list_lookup_middle; done).
  apply lookup_seqZ in Ht as (-> & Hlt). split; [lia|].
  intros t' Ht'. apply list_elem_of_lookup. exists (Z.to_nat t').
  assert (seqZ 0 n !! Z.to_nat t' = Some t') as Hl
    by (apply lookup_seqZ; lia).
  rewrite Hsplit, lookup_app_l in Hl by lia. done.
Qed.

Lemma backup_second_pass_spec s :
  ∃ r, backup_second_pass s = Ok r ∧
    match r with
    | None => stuck s
    | Some (f, t) => first_legal_move s f t
    end.
Proof.
  unfold backup_second_pass.
  assert (Forall (in_range s) (Py.range (Py.len (tubes s)))) as Hall.
  { apply Forall_forall. intros f. by rewrite elem_of_range. }
  destruct (first_legal_spec s _ _ Hall Hall) as (r & -> & Hr).
  exists r. split; [done|]. destruct r as [[f t]|].
  - destruct Hr as (Hcp & pre & post & pre' & post' & Hf & Ht & Hpre & Hpre').
    apply range_split in Hf as (Hf & Hbef).
    apply range_split in Ht as (Ht & Hbef').
    repeat split; try done; try apply Hf; try apply Ht.
    intros f' t' Hf' Ht' [Hlt|[-> Hlt]].
    + apply Hpre; [apply Hbef; unfold in_range in *; lia|by apply elem_of_range].
    + apply Hpre'. apply Hbef'. unfold in_range in *. lia.
  - intros f t Hf Ht. rewrite Hr by (by apply elem_of_range). done.
Qed.

Lemma find_backup_move_spec (s : State) :
  tube_capacity s ≠ 1 →
  ∃ r, find_backup_move s = Ok r ∧
    (r = None ↔ stuck s) ∧
    ∀ f t, r = Some (f, t) →
      can_pour s f t = Ok true ∧
      (almost_complete_move s f t ∨
       ((∀ f' t', ¬ almost_complete_move s f' t') ∧ first_legal_move s f t)).
Proof.
  intros Hcap. unfold find_backup_move.
  destruct (backup_first_pass_spec s (Py.enumerate (tubes s)) Hcap)
    as (r1 & -> & Hr1).
  { intros k u. by rewrite elem_of_enumerate. }
  simpl. destruct r1 as [[f t]|].
  - exists (Some (f, t)). split; [done|]. split.
    + split; [done|]. intros Hstuck.
      destruct Hr1 as (Hf & Ht & Hcp & _). by destruct (Hstuck f t).
    + intros f' t' [= <- <-]. split; [apply Hr1|by left].
  - destruct (backup_second_pass_spec s) as (r2 & -> & Hr2).
    exists r2. split; [done|]. destruct r2 as [[f t]|].
    + split.
      * split; [done|]. intros Hstuck.
        destruct Hr2 as (Hf & Ht & Hcp & _). by destruct (Hstuck f t).
      * intros f' t' [= <- <-]. split; [apply Hr2|]. right. split; [|done].
        intros f' t' Hac. pose proof Hac as (Hf' & Ht' & _ & dst & _ & _ & Hdst & _).
        eapply (Hr1 f' t' dst); [|done|done].
        apply elem_of_enumerate. split; [apply Ht'|done].
    + split; [done|]. by intros f t.
Qed.

(** C8. The backup move is exhaustive.  [find_backup_move] returns no move
    exactly when no pair of tube indices is a legal pour.  A move that it
    returns is a legal pour: one into a tube that is one unit short of full
    and of one colour from a tube with that colour on top, or, when no such
    pour exists, the first legal pour of the scan of all pairs in index
    order.  (With a capacity of 1 the first pass would subscript an empty
    tube; the constructor sets 4.) *)
Theorem find_backup_move_exhaustive (s : State) :
  tube_capacity s ≠ 1 →
  ∃ r, find_backup_move s = Ok r ∧
    (r = None ↔ stuck s) ∧
    ∀ f t, r = Some (f, t) →
      can_pour s f t = Ok true ∧
      (almost_complete_move s f t ∨
       ((∀ f' t', ¬ almost_complete_move s f' t') ∧ first_legal_move s f t)).
Proof. apply find_backup_move_spec. Qed.

Lemma find_backup_move_exhaustive_witness :
  find_backup_move (init [[1; 2; 2]; [3; 3; 3]; [2; 3]]) = Ok (Some (2, 1)) ∧
  can_pour (init [[1; 2; 2]; [3; 3; 3]; [2; 3]]) 2 1 = Ok true.
Proof.
  destruct (find_backup_move_exhaustive (init [[1; 2; 2]; [3; 3; 3]; [2; 3]]))
    as (r & Hr & _ & Hlegal).
  - simpl. lia.
  - vm_compute in Hr. injection Hr as <-.
    split; [reflexivity|]. by destruct (Hlegal 2 1 eq_refl).
Defined.

(** ** The planner proposes legal pours of tube indices only *)

Lemma enumerate_in_range s i u :
  (i, u) ∈ Py.enumerate (tubes s) → in_range s i.
Proof.
  intros (Hi & Hu%lookup_lt_Some)%elem_of_enumerate.
  unfold in_range, Py.len. lia.
Qed.

Lemma get_empty_tubes_in_range s : Forall (in_range s) (get_empty_tubes s).
Proof.
  apply Forall_forall. intros i ([k u] & Hi & Hk)%list_elem_of_bind.
  case_bool_decide; [|by apply elem_of_nil in Hi].
  apply list_elem_of_singleton in Hi as ->. by eapply enumerate_in_range.
Qed.

Lemma get_tubes_with_space_in_range s : Forall (in_range s) (get_tubes_with_space s).
Proof.
  apply Forall_forall. intros i ([k u] & Hi & Hk)%list_elem_of_bind.
  case_bool_decide; [|by apply elem_of_nil in Hi].
  apply list_elem_of_singleton in Hi as ->. by eapply enumerate_in_range.
Qed.

Lemma tubes_with_target_top_in_range s c :
  Forall (in_range s) (tubes_with_target_top s c).
Proof.
  apply Forall_forall. intros i ([k u] & Hi & Hk)%list_elem_of_bind.
  destruct (last u); [|by apply elem_of_nil in Hi].
  case_bool_decide; [|by apply elem_of_nil in Hi].
  apply list_elem_of_singleton in Hi as ->. by eapply enumerate_in_range.
Qed.

Lemma positions_of_in_range s b c :
  Forall (fun p => in_range s (tube_index p)) (positions_of b (tubes s) c).
Proof.
  apply Forall_forall. intros p ([k u] & Hp & Hk)%list_elem_of_bind.
  apply list_elem_of_bind in Hp as ([pos x] & Hp & _).
  case_bool_decide; [|by apply elem_of_nil in Hp].
  apply list_elem_of_singleton in Hp as ->. simpl. by eapply enumerate_in_range.
Qed.

Section Stuck.
Variable s : State.
Hypothesis Hstuck : stuck s.

Lemma candidates_into_stuck f ty prio targets :
  in_range s f → Forall (in_range s) targets →
  candidates_into s f ty prio targets = Ok [].
Proof.
  intros Hf. induction 1 as [|t targets Ht _ IH]; simpl; [done|].
  rewrite IH. case_bool_decide; simpl; [|done].
  rewrite (can_pour_not_true s f t) by auto. done.
Qed.

Lemma candidates_for_positions_stuck es ws ps :
  Forall (in_range s) es → Forall (in_range s) ws →
  Forall (fun p => in_range s (tube_index p)) ps →
  candidates_for_positions s es ws ps = Ok [].
Proof.
  intros Hes Hws. induction 1 as [|p ps Hp _ IH]; simpl; [done|].
  rewrite IH. unfold candidates_for_position.
  destruct (is_top p).
  - by rewrite candidates_into_stuck.
  - case_bool_decide; [|done]. by rewrite !candidates_into_stuck.
Qed.

Lemma merge_into_stuck f later :
  in_range s f → Forall (in_range s) later → merge_into s f later = Ok [].
Proof.
  intros Hf. induction 1 as [|t later Ht _ IH]; simpl; [done|].
  rewrite IH. rewrite (can_pour_not_true s f t) by auto. done.
Qed.

Lemma merge_candidates_stuck tops :
  Forall (in_range s) tops → merge_candidates s tops = Ok [].
Proof.
  induction 1 as [|f tops Hf Htops IH]; simpl; [done|].
  by rewrite IH, merge_into_stuck.
Qed.

Lemma find_moves_for_color_stuck c : find_moves_for_color s c = Ok [].
Proof.
  unfold find_moves_for_color.
  rewrite candidates_for_positions_stuck.
  - simpl. case_bool_decide; [|done].
    by rewrite merge_candidates_stuck by apply tubes_with_target_top_in_range.
  - apply get_empty_tubes_in_range.
  - apply get_tubes_with_space_in_range.
  - rewrite sorted_perm. apply positions_of_in_range.
Qed.

Lemma find_backup_move_stuck : tube_capacity s ≠ 1 → find_backup_move s = Ok None.
Proof.
  intros Hcap. destruct (find_backup_move_spec s Hcap) as (r & -> & Hr & _).
  f_equal. by apply Hr.
Qed.
End Stuck.

(** ** The solve loop on a deadlocked configuration *)

Lemma solve_step_stuck set_iter rng k s :
  stuck s → tube_capacity s ≠ 1 → visited_states s = ∅ →
  solve_step set_iter rng k s = Ok (false, set_visited s {[ get_state_hash s ]}).
Proof.
  intros Hstuck Hcap Hvis. unfold solve_step.
  rewrite Hvis, bool_decide_eq_false_2 by apply not_elem_of_empty.
  rewrite (left_id_L ∅ (∪)).
  set (s1 := set_visited s {[ get_state_hash s ]}).
  assert (stuck s1) as Hstuck1 by exact Hstuck.
  assert (backup_step s1 = Ok (false, s1)) as Hb.
  { unfold backup_step. by rewrite (find_backup_move_stuck s1 Hstuck1 Hcap). }
  destruct (find_target_color set_iter s1) as [c|]; [|done].
  case_bool_decide; [|done].
  by rewrite (find_moves_for_color_stuck s1 Hstuck1).
Qed.

Lemma solve_loop_stuck set_iter rng fuel k s :
  is_solved s = false → stuck s → tube_capacity s ≠ 1 → visited_states s = ∅ →
  solve_loop set_iter rng (S fuel) k s
  = Some (Ok (set_visited s {[ get_state_hash s ]})).
Proof.
  intros Hns Hstuck Hcap Hvis. cbn [solve_loop].
  by rewrite Hns, solve_step_stuck.
Qed.

(** C6. A deadlocked start.  If the initial configuration is not solved and
    no pair of tube indices is a legal pour, [solve] terminates (one
    iteration of its loop is enough, whatever the set order and the random
    source), raises nothing, returns [False], and leaves the tubes as they
    were with an empty move trace. *)
Theorem solve_stuck (set_iter : list color → list color) (rng : nat → nat)
    (cfg : list tube) (fuel : nat) :
  is_solved (init cfg) = false →
  stuck (init cfg) →
  ∃ s', solve set_iter rng (S fuel) (init cfg) = Some (Ok (false, s')) ∧
        moves s' = [] ∧ tubes s' = cfg.
Proof.
  intros Hns Hstuck. unfold solve.
  change (reset (init cfg)) with (init cfg).
  rewrite solve_loop_stuck; [|done|done|simpl; lia|done].
  exists (set_visited (init cfg) {[ get_state_hash (init cfg) ]}).
  split; [|done]. simpl. do 3 f_equal. exact Hns.
Qed.

Lemma solve_stuck_witness :
  ∃ s', solve remove_dups (fun _ => 0%nat) 1
          (init [[1; 2; 1; 2]; [2; 3; 2; 3]; [3; 1; 3; 1]]) = Some (Ok (false, s')) ∧
        moves s' = [] ∧
        tubes s' = [[1; 2; 1; 2]; [2; 3; 2; 3]; [3; 1; 3; 1]].
Proof.
  apply solve_stuck; [reflexivity|].
  intros f t Hf Ht.
  assert (f = 0 ∨ f = 1 ∨ f = 2) as Hf' by (unfold in_range, Py.len in Hf; simpl in Hf; lia).
  assert (t = 0 ∨ t = 1 ∨ t = 2) as Ht' by (unfold in_range, Py.len in Ht; simpl in Ht; lia).
  destruct Hf' as [->|[->| ->]], Ht' as [->|[->| ->]]; vm_compute; discriminate.
Defined.

(** ** The colour analysis *)

Lemma enumerate_from_snoc {A} (l : list A) k x :
  Py.enumerate_from k (l ++ [x]) = Py.enumerate_from k l ++ [(k + Py.len l, x)].
Proof.
  revert k. induction l as [|y l IH]; intros k; simpl.
  - unfold Py.len. simpl. by rewrite Z.add_0_r.
  - rewrite IH. unfold Py.len. simpl. do 4 f_equal. lia.
Qed.

Lemma tube_positions_elem b ti t c p :
  p ∈ tube_positions b ti t c ↔
  ∃ pos : nat, t !! pos = Some c ∧
    p = mkPosition ti (Z.of_nat pos) (Py.len t - Z.of_nat pos - 1)
          (bool_decide (Z.of_nat pos = Py.len t - 1))
          (if b then Py.slice_from t (Z.of_nat pos + 1) else []).
Proof.
  unfold tube_positions. rewrite list_elem_of_bind. split.
  - intros ([pos x] & Hp & (Hpos & Hx)%elem_of_enumerate).
    case_bool_decide; [|by apply elem_of_nil in Hp]. subst x.
    apply list_elem_of_singleton in Hp as ->.
    exists (Z.to_nat pos). rewrite Z2Nat.id by done. done.
  - intros (pos & Hx & ->). exists (Z.of_nat pos, c). simpl.
    rewrite (bool_decide_eq_true_2 (c = c)) by done. split; [by apply list_elem_of_singleton|].
    apply elem_of_enumerate. rewrite Nat2Z.id. split; [lia|done].
Qed.

Lemma positions_of_elem b ts c p :
  p ∈ positions_of b ts c ↔
  ∃ (ti pos : nat) (t : tube), ts !! ti = Some t ∧ t !! pos = Some c ∧
    p = mkPosition (Z.of_nat ti) (Z.of_nat pos) (Py.len t - Z.of_nat pos - 1)
          (bool_decide (Z.of_nat pos = Py.len t - 1))
          (if b then Py.slice_from t (Z.of_nat pos + 1) else []).
Proof.
  unfold positions_of. rewrite list_elem_of_bind. split.
  - intros ([ti t] & (pos & Hc & ->)%tube_positions_elem & (Hti & Ht)%elem_of_enumerate).
    exists (Z.to_nat ti), pos, t. rewrite Z2Nat.id by done. done.
  - intros (ti & pos & t & Ht & Hc & ->). exists (Z.of_nat ti, t). split.
    + apply tube_positions_elem. eauto.
    + apply elem_of_enumerate. rewrite Nat2Z.id. split; [lia|done].
Qed.

Lemma length_positions_gen (g : Z → Position) c (t : list Z) k :
  length (Py.enumerate_from k t ≫=
            (fun '(pos, x) => if bool_decide (x = c) then [g pos] else []))
  = length (filter (fun x => x = c) t).
Proof.
  revert k. induction t as [|x t IH]; intros k; [done|].
  cbn [Py.enumerate_from]. rewrite bind_cons, length_app, IH.
  case_bool_decide.
  - by rewrite filter_cons_True.
  - by rewrite filter_cons_False.
Qed.

Lemma length_tube_positions b ti t c :
  length (tube_positions b ti t c) = length (filter (fun x => x = c) t).
Proof. unfold tube_positions, Py.enumerate. apply length_positions_gen. Qed.

Lemma not_top_positions_gen (g : Z → Position) c (t : list Z) k :
  (∀ pos, k ≤ pos < k + Py.len t → is_top (g pos) = false) →
  filter (fun p => is_top p = true)
    (Py.enumerate_from k t ≫=
       (fun '(pos, x) => if bool_decide (x = c) then [g pos] else [])) = [].
Proof.
  revert k. induction t as [|x t IH]; intros k Hg; [done|].
  cbn [Py.enumerate_from]. rewrite bind_cons, filter_app, IH.
  - rewrite app_nil_r. case_bool_decide; [|done].
    rewrite filter_cons_False; [done|].
    rewrite Hg; [done|]. unfold Py.len. simpl. lia.
  - intros pos Hpos. apply Hg. unfold Py.len in *. simpl. lia.
Qed.

Lemma top_tube_positions b ti t c :
  length (filter (fun p => is_top p = true) (tube_positions b ti t c))
  = if bool_decide (last t = Some c) then 1%nat else 0%nat.
Proof.
  destruct t as [|x t _] using rev_ind; [done|].
  unfold tube_positions, Py.enumerate.
  rewrite enumerate_from_snoc, bind_app, filter_app, length_app.
  rewrite not_top_positions_gen.
  2:{ intros pos Hpos. simpl. apply bool_decide_eq_false_2.
      unfold Py.len in *. rewrite length_app. simpl. lia. }
  simpl. rewrite last_snoc, app_nil_r.
  destruct (decide (x = c)) as [->|Hx].
  - rewrite (bool_decide_eq_true_2 (c = c)) by done.
    rewrite (bool_decide_eq_true_2 (Some c = Some c)) by done.
    rewrite filter_cons_True; [done|]. simpl. apply bool_decide_eq_true_2.
    unfold Py.len. rewrite length_app. simpl. lia.
  - rewrite (bool_decide_eq_false_2 (x = c)) by done.
    by rewrite (bool_decide_eq_false_2 (Some x = Some c)) by congruence.
Qed.

Lemma positions_of_from b ts c k :
  length (Py.enumerate_from k ts ≫= (fun '(ti, t) => tube_positions b ti t c))
    = unit_count ts c ∧
  length (filter (fun p => is_top p = true)
            (Py.enumerate_from k ts ≫= (fun '(ti, t) => tube_positions b ti t c)))
    = top_count ts c.
Proof.
  revert k. unfold unit_count, top_count.
  induction ts as [|t ts IH]; intros k; [done|].
  cbn [Py.enumerate_from]. rewrite bind_cons, filter_app, !length_app.
  destruct (IH (k + 1)) as [-> ->].
  rewrite length_tube_positions, top_tube_positions.
  split; [by rewrite concat_cons, filter_app, length_app|].
  case_bool_decide.
  - by rewrite filter_cons_True.
  - by rewrite filter_cons_False.
Qed.

Lemma length_positions_of b ts c :
  length (positions_of b ts c) = unit_count ts c.
Proof. apply positions_of_from. Qed.

Lemma top_positions_of b ts c :
  length (filter (fun p => is_top p = true) (positions_of b ts c)) = top_count ts c.
Proof. apply positions_of_from. Qed.

Lemma py_max_spec (l : list Z) :
  l ≠ [] → py_max l ∈ l ∧ ∀ x, x ∈ l → x ≤ py_max l.
Proof.
  destruct l as [|x l]; [done|]. intros _. simpl.
  assert (∀ a, (foldl Z.max a l = a ∨ foldl Z.max a l ∈ l) ∧
               a ≤ foldl Z.max a l ∧ ∀ y, y ∈ l → y ≤ foldl Z.max a l) as H.
  { induction l as [|y l IH]; intros a; simpl.
    - split; [by left|]. split; [lia|]. by intros y ?%elem_of_nil.
    - destruct (IH (a `max` y)) as (Hin & Hle & Hall). split; [|split].
      + destruct Hin as [Heq|Hin]; [|right; by right].
        rewrite Heq. destruct (Z.max_spec a y) as [[_ ->]|[_ ->]];
          [right; by left | by left].
      + lia.
      + intros z [->|Hz]%elem_of_cons; [lia|by apply Hall]. }
  destruct (H x) as (Hin & Hle & Hall). split.
  - destruct Hin as [->|Hin]; [by left|by right].
  - intros y [->|Hy]%elem_of_cons; [done|by apply Hall].
Qed.

Lemma existsb_filter_length {A} (f : A → bool) (l : list A) :
  existsb f l = true ↔ (1 ≤ length (filter (fun p => f p = true) l))%nat.
Proof.
  induction l as [|x l IH]; simpl; [split; [done|lia]|].
  destruct (f x) eqn:Hx; simpl.
  - rewrite filter_cons_True by done. simpl. split; [lia|done].
  - rewrite filter_cons_False by congruence. done.
Qed.

Lemma target_step_eq bc bs c d :
  target_step (bc, bs) (c, d) =
    if negb (is_collectible d) then (bc, bs)
    else if bool_decide (bs < entry_score d) then (Some c, entry_score d)
    else (bc, bs).
Proof.
  unfold target_step, entry_score. destruct (is_collectible d); simpl; [|done].
  destruct (bool_decide (1 < _)); [done|]. by rewrite Z.add_0_r.
Qed.

Lemma foldl_target_step items bc bs :
  ∃ bc' bs', foldl target_step (bc, bs) items = (bc', bs') ∧
    ((bc' = bc ∧ bs' = bs ∧
      ∀ c d, (c, d) ∈ items → is_collectible d = true → entry_score d ≤ bs) ∨
     (∃ c d, (c, d) ∈ items ∧ is_collectible d = true ∧
             bc' = Some c ∧ bs' = entry_score d ∧ bs < bs' ∧
             ∀ c' d', (c', d') ∈ items → is_collectible d' = true →
                      entry_score d' ≤ bs')).
Proof.
  revert bc bs. induction items as [|[c d] items IH]; intros bc bs.
  { exists bc, bs. split; [done|]. left. repeat split; try done.
    by intros c d ?%elem_of_nil. }
  cbn [foldl]. rewrite target_step_eq.
  destruct (is_collectible d) eqn:Hcol; simpl.
  2:{ destruct (IH bc bs) as (bc' & bs' & -> & Hcase). exists bc', bs'.
      split; [done|]. destruct Hcase as [(-> & -> & Hall)|(c1 & d1 & Hin & Hc1 & -> & -> & Hlt & Hall)].
      - left. repeat split; try done.
        intros c2 d2 [[= -> ->]|Hin]%elem_of_cons Hc2; [congruence|by eapply Hall].
      - right. exists c1, d1. repeat split; try done; [by right|].
        intros c2 d2 [[= -> ->]|Hin2]%elem_of_cons Hc2; [congruence|by eapply Hall]. }
  case_bool_decide as Hlt.
  - destruct (IH (Some c) (entry_score d)) as (bc' & bs' & -> & Hcase).
    exists bc', bs'. split; [done|]. right.
    destruct Hcase as [(-> & -> & Hall)|(c1 & d1 & Hin & Hc1 & -> & -> & Hlt1 & Hall)].
    + exists c, d. repeat split; try done; [by left|].
      intros c2 d2 [[= -> ->]|Hin]%elem_of_cons Hc2; [lia|by eapply Hall].
    + exists c1, d1. repeat split; try done; [by right|lia|].
      intros c2 d2 [[= -> ->]|Hin2]%elem_of_cons Hc2; [lia|by eapply Hall].
  - destruct (IH bc bs) as (bc' & bs' & -> & Hcase). exists bc', bs'.
    split; [done|].
    destruct Hcase as [(-> & -> & Hall)|(c1 & d1 & Hin & Hc1 & -> & -> & Hlt1 & Hall)].
    + left. repeat split; try done.
      intros c2 d2 [[= -> ->]|Hin]%elem_of_cons Hc2; [lia|by eapply Hall].
    + right. exists c1, d1. repeat split; try done; [by right|].
      intros c2 d2 [[= -> ->]|Hin2]%elem_of_cons Hc2; [lia|by eapply Hall].
Qed.

Section Target.
Variable set_iter : list color → list color.
Variable s : State.

Lemma analyze_colors_elem c d :
  (c, d) ∈ analyze_colors set_iter s ↔
  c ∈ set_iter (concat (tubes s)) ∧
  Z.of_nat (unit_count (tubes s) c) = tube_capacity s ∧
  d = (let ps := Py.sorted by_depth_desc (positions_of false (tubes s) c) in
       mkColorData (Py.len (positions_of false (tubes s) c)) ps
         (existsb is_top ps)
         (if bool_decide (ps ≠ []) then py_max (depth <$> ps) else 0)).
Proof.
  unfold analyze_colors. rewrite list_elem_of_bind. split.
  - intros (c' & Hin & Hc').
    case_bool_decide as Hcnt; [|by apply elem_of_nil in Hin].
    apply list_elem_of_singleton in Hin. injection Hin as -> ->.
    unfold Py.len in Hcnt at 1. rewrite length_positions_of in Hcnt. done.
  - intros (Hc & Hcount & ->). exists c. split; [|done].
    assert (Py.len (positions_of false (tubes s) c) = tube_capacity s) as Hlen
      by (unfold Py.len; by rewrite length_positions_of).
    rewrite (bool_decide_eq_true_2 _ Hlen). by apply list_elem_of_singleton.
Qed.

Lemma entry_positions c d :
  (c, d) ∈ analyze_colors set_iter s →
  positions d ≡ₚ positions_of false (tubes s) c.
Proof. intros (_ & _ & ->)%analyze_colors_elem. apply sorted_perm. Qed.

Lemma entry_tops c d :
  (c, d) ∈ analyze_colors set_iter s →
  length (filter (fun p => is_top p = true) (positions d)) = top_count (tubes s) c.
Proof.
  intros Hin. rewrite (entry_positions c d Hin). apply top_positions_of.
Qed.

Lemma entry_collectible c d :
  (c, d) ∈ analyze_colors set_iter s →
  is_collectible d = true ↔ (1 ≤ top_count (tubes s) c)%nat.
Proof.
  intros Hin. rewrite <-(entry_tops c d Hin).
  apply analyze_colors_elem in Hin as (_ & _ & ->). simpl.
  apply existsb_filter_length.
Qed.

Lemma entry_max_depth c d :
  (c, d) ∈ analyze_colors set_iter s → is_collectible d = true →
  is_max_depth (tubes s) c (max_depth d).
Proof.
  intros Hin Hcol. pose proof (entry_positions c d Hin) as Hperm.
  pose proof (proj1 (entry_collectible c d Hin) Hcol) as Htop.
  rewrite <-(entry_tops c d Hin) in Htop.
  assert (positions d ≠ []) as Hne by (intros Heq; rewrite Heq in Htop; simpl in Htop; lia).
  assert (max_depth d = py_max (depth <$> positions d)) as ->.
  { apply analyze_colors_elem in Hin as (_ & _ & ->). simpl in *.
    by rewrite bool_decide_eq_true_2. }
  destruct (py_max_spec (depth <$> positions d)) as (Hmem & Hmax).
  { by destruct (positions d). }
  split.
  - apply list_elem_of_fmap in Hmem as (p & Hp & Hpin).
    rewrite Hperm in Hpin.
    apply positions_of_elem in Hpin as (ti & pos & t & Ht & Hc & ->).
    exists ti, pos, t. by rewrite Hp.
  - intros ti pos t Ht Hc. apply Hmax. apply list_elem_of_fmap.
    exists (mkPosition (Z.of_nat ti) (Z.of_nat pos) (Py.len t - Z.of_nat pos - 1)
              (bool_decide (Z.of_nat pos = Py.len t - 1)) []).
    split; [done|]. rewrite Hperm. apply positions_of_elem.
    by exists ti, pos, t.
Qed.

Lemma entry_has_score c d :
  (c, d) ∈ analyze_colors set_iter s → is_collectible d = true →
  has_score s c (entry_score d) ∧ 0 ≤ entry_score d.
Proof.
  intros Hin Hcol. pose proof (entry_max_depth c d Hin Hcol) as Hmax.
  assert (entry_score d = max_depth d * 10 +
            (if bool_decide (1 < top_count (tubes s) c)%nat
             then Z.of_nat (top_count (tubes s) c) * 5 else 0)) as Hsc.
  { unfold entry_score, Py.len. rewrite (entry_tops c d Hin).
    f_equal. repeat case_bool_decide; lia. }
  split; [by exists (max_depth d)|].
  destruct Hmax as ((ti & pos & t & Ht & Hc%lookup_lt_Some & Hd) & _).
  rewrite Hsc. unfold Py.len in Hd. case_bool_decide; lia.
Qed.

Lemma has_score_unique c sc sc' : has_score s c sc → has_score s c sc' → sc = sc'.
Proof.
  intros (d & ((ti & pos & t & Ht & Hc & Hd) & Hmax) & ->)
         (d' & ((ti' & pos' & t' & Ht' & Hc' & Hd') & Hmax') & ->).
  assert (d = d') as ->; [|done].
  specialize (Hmax ti' pos' t' Ht' Hc'). specialize (Hmax' ti pos t Ht Hc). lia.
Qed.

Hypothesis Hset : set_enumeration set_iter.

Lemma collectible_entry c :
  collectible s c ↔
  ∃ d, (c, d) ∈ analyze_colors set_iter s ∧ is_collectible d = true.
Proof.
  split.
  - intros (Hcount & Htop). eexists. split.
    + apply analyze_colors_elem. split; [|split; [done|reflexivity]].
      apply Hset. unfold top_count in Htop.
      destruct (filter _ (tubes s)) as [|t ts] eqn:Hf; [simpl in Htop; lia|].
      assert (t ∈ filter (fun t : list Z => last t = Some c) (tubes s)) as Hin
        by (rewrite Hf; by left).
      apply list_elem_of_filter in Hin as (Hlast & Hin).
      apply list_elem_of_In, in_concat. exists t.
      split; [by apply list_elem_of_In|]. apply list_elem_of_In.
      rewrite last_lookup in Hlast. by eapply list_elem_of_lookup_2.
    + simpl. by apply existsb_filter_length;
        rewrite sorted_perm, top_positions_of.
  - intros (d & Hin & Hcol). split.
    + by apply analyze_colors_elem in Hin as (_ & ? & _).
    + by apply (entry_collectible c d Hin).
Qed.

Lemma find_target_color_correct :
  (find_target_color set_iter s = None ↔ ∀ c, ¬ collectible s c) ∧
  (∀ c, find_target_color set_iter s = Some c →
     collectible s c ∧
     ∃ sc, has_score s c sc ∧
           ∀ c' sc', collectible s c' → has_score s c' sc' → sc' ≤ sc).
Proof.
  unfold find_target_color.
  destruct (foldl_target_step (analyze_colors set_iter s) None (-1))
    as (bc & bs & -> & Hcase). simpl.
  destruct Hcase as [(-> & -> & Hall)|(c & d & Hin & Hcol & -> & -> & Hlt & Hall)].
  - split; [|done]. split; [|done]. intros _ c (d & Hin & Hcol)%collectible_entry.
    specialize (Hall c d Hin Hcol).
    destruct (entry_has_score c d Hin Hcol). lia.
  - split.
    + split; [done|]. intros Hnone. destruct (Hnone c).
      apply collectible_entry. eauto.
    + intros c' [= <-]. split; [apply collectible_entry; eauto|].
      exists (entry_score d). split; [by apply entry_has_score|].
      intros c' sc' (d' & Hin' & Hcol')%collectible_entry Hsc'.
      destruct (entry_has_score c' d' Hin' Hcol') as (Hsc2 & _).
      rewrite (has_score_unique c' sc' _ Hsc' Hsc2). by eapply Hall.
Qed.
End Target.

(** C7. Target colour selection.  The colours considered are the
    collectible ones: as many units as the capacity, at least one of them
    on top of its tube.  The score of such a colour is ten times its
    largest depth, plus five per tube that has it on top when more than one
    tube does.  [find_target_color] returns no colour exactly when no
    colour is collectible, and a colour that it returns is collectible and
    no collectible colour has a higher score.  This holds for every order
    in which the interpreter may iterate the set of colours. *)
Theorem find_target_color_selects (set_iter : list color → list color) (s : State) :
  set_enumeration set_iter →
  (find_target_color set_iter s = None ↔ ∀ c, ¬ collectible s c) ∧
  (∀ c, find_target_color set_iter s = Some c →
     collectible s c ∧
     ∃ sc, has_score s c sc ∧
           ∀ c' sc', collectible s c' → has_score s c' sc' → sc' ≤ sc).
Proof. apply find_target_color_correct. Qed.

Lemma set_enumeration_remove_dups : set_enumeration remove_dups.
Proof.
  intros l. split; [apply NoDup_remove_dups|].
  intros x. apply elem_of_remove_dups.
Qed.

Lemma find_target_color_selects_witness :
  find_target_color remove_dups (init [[1; 2; 1; 2]; [2; 1; 1; 2]; []]) = Some 2 ∧
  collectible (init [[1; 2; 1; 2]; [2; 1; 1; 2]; []]) 2.
Proof.
  destruct (find_target_color_selects remove_dups
              (init [[1; 2; 1; 2]; [2; 1; 1; 2]; []])
              set_enumeration_remove_dups) as [_ Hsome].
  split; [reflexivity|]. by destruct (Hsome 2 eq_refl).
Defined.

(** * Further properties of the code *)

(** ** Exceptions of [can_pour] and [pour] *)

Lemma index_None n i : Py.index n i = None ↔ ¬ (- Z.of_nat n ≤ i < Z.of_nat n).
Proof.
  unfold Py.index. repeat case_bool_decide; split; try done; try lia.
Qed.

Lemma getitem_Raise {A} (l : list A) i e :
  Py.getitem l i = Raise e ↔ ¬ (- Py.len l ≤ i < Py.len l).
Proof.
  unfold Py.len. rewrite <-index_None. unfold Py.getitem.
  destruct (Py.index _ _) as [k|] eqn:Hk.
  - destruct (index_Some _ _ _ Hk) as [Hlt _].
    destruct (lookup_lt_is_Some_2 l k Hlt) as [x ->]. done.
  - destruct e. done.
Qed.

(** X1. [can_pour] raises [IndexError] in exactly two situations, both with
    [from_index != to_index]: the source subscript is outside
    [-len(tubes) .. len(tubes) - 1], or the source tube is not empty and the
    destination subscript is outside that range.  Equal subscripts and an
    empty source tube are refused with [False] before any faulty subscript
    is evaluated. *)
Theorem can_pour_raises (s : State) (from_index to_index : Z) (e : exn) :
  can_pour s from_index to_index = Raise e ↔
    from_index ≠ to_index ∧
    (¬ (- Py.len (tubes s) ≤ from_index < Py.len (tubes s)) ∨
     ((∃ src, Py.getitem (tubes s) from_index = Ok src ∧ src ≠ []) ∧
      ¬ (- Py.len (tubes s) ≤ to_index < Py.len (tubes s)))).
Proof.
  unfold can_pour. case_bool_decide as Hne; [split; [done|by intros [? _]]|].
  destruct (Py.getitem (tubes s) from_index) as [src|e'] eqn:Hsrc; simpl.
  2:{ destruct e, e'. apply getitem_Raise in Hsrc. split; [auto|done]. }
  assert (- Py.len (tubes s) ≤ from_index < Py.len (tubes s)) as Hin.
  { destruct (decide (- Py.len (tubes s) ≤ from_index < Py.len (tubes s)))
      as [?|Hout]; [done|].
    apply (getitem_Raise _ _ IndexError) in Hout. congruence. }
  case_bool_decide as Hlen.
  { apply len_zero in Hlen as ->. split; [done|].
    intros (_ & [?|((src & [= <-] & ?) & _)]); done. }
  rewrite len_zero in Hlen.
  destruct (Py.getitem (tubes s) to_index) as [dst|e'] eqn:Hdst; simpl.
  2:{ destruct e, e'. apply getitem_Raise in Hdst. split; [|done].
      intros _. split; [done|]. right. split; [eauto|done]. }
  assert (- Py.len (tubes s) ≤ to_index < Py.len (tubes s)) as Hin'.
  { destruct (decide (- Py.len (tubes s) ≤ to_index < Py.len (tubes s)))
      as [?|Hout]; [done|].
    apply (getitem_Raise _ _ IndexError) in Hout. congruence. }
  assert (∀ b : result bool, (∃ x, b = Ok x) →
    b = Raise e ↔ from_index ≠ to_index ∧
      (¬ (- Py.len (tubes s) ≤ from_index < Py.len (tubes s)) ∨
       ((∃ src0, Ok src = Ok src0 ∧ src0 ≠ []) ∧
        ¬ (- Py.len (tubes s) ≤ to_index < Py.len (tubes s))))) as Hok.
  { intros b [x ->]. split; [done|]. intros (_ & [?|[_ ?]]); done. }
  apply Hok. case_bool_decide; [by eexists|].
  destruct (getitem_last_nonempty src Hlen) as (c & _ & ->). simpl.
  case_bool_decide as Hd; simpl; [|by eexists].
  assert (dst ≠ []) as Hne' by (intros ->; unfold Py.len in Hd; simpl in Hd; lia).
  destruct (getitem_last_nonempty dst Hne') as (c' & _ & ->). simpl. by eexists.
Qed.

(** X2. [pour] raises exactly when [can_pour] does, and otherwise returns
    the answer of [can_pour]: nothing in the body of [pour] can fail once
    [can_pour] has accepted the pair. *)
Theorem pour_follows_can_pour (s : State) (from_index to_index : Z) :
  match can_pour s from_index to_index with
  | Ok b => ∃ s', pour s from_index to_index = Ok (b, s')
  | Raise e => pour s from_index to_index = Raise e
  end.
Proof.
  destruct (can_pour s from_index to_index) as [[]|e] eqn:Hcp.
  - destruct (can_pour_true _ _ _ Hcp) as (i & j & src & dst & c & Hl).
    eexists. by apply (pour_legal _ _ _ _ _ _ _ _ Hl).
  - exists s. by apply pour_refused.
  - unfold pour. by rewrite Hcp.
Qed.

(** ** The index filters *)

Lemma enumerate_filter_sorted {A} (keep : A → bool) (l : list A) k :
  StronglySorted Z.lt
    (Py.enumerate_from k l ≫= (fun '(i, x) => if keep x then [i] else [])) ∧
  Forall (fun i => k ≤ i)
    (Py.enumerate_from k l ≫= (fun '(i, x) => if keep x then [i] else [])).
Proof.
  revert k. induction l as [|x l IH]; intros k.
  { split; constructor. }
  cbn [Py.enumerate_from]. rewrite bind_cons.
  destruct (IH (k + 1)) as (Hs & Hk).
  assert (Forall (fun i => k < i)
            (Py.enumerate_from (k + 1) l ≫=
               (fun '(i, x) => if keep x then [i] else []))) as Hlt
    by (eapply Forall_impl; [exact Hk|]; simpl; intros; lia).
  destruct (keep x); simpl.
  - split.
    + by constructor.
    + constructor; [lia|].
      eapply Forall_impl; [exact Hlt|]. simpl. intros. lia.
  - split; [done|]. eapply Forall_impl; [exact Hlt|]. simpl. intros. lia.
Qed.

(** X3. [get_empty_tubes] returns the indices of the empty tubes, and only
    those, in increasing order and without repetition. *)
Theorem get_empty_tubes_spec (s : State) :
  (∀ i, i ∈ get_empty_tubes s ↔ 0 ≤ i ∧ tubes s !! Z.to_nat i = Some []) ∧
  StronglySorted Z.lt (get_empty_tubes s).
Proof.
  split.
  - intros i. unfold get_empty_tubes. rewrite list_elem_of_bind. split.
    + intros ([k u] & Hi & (Hk & Hu)%elem_of_enumerate).
      case_bool_decide as Hlen; [|by apply elem_of_nil in Hi].
      apply list_elem_of_singleton in Hi as ->.
      apply len_zero in Hlen as ->. done.
    + intros (Hi & Hu). exists (i, []). split.
      * rewrite bool_decide_eq_true_2 by done. by apply list_elem_of_singleton.
      * by apply elem_of_enumerate.
  - apply (enumerate_filter_sorted
             (fun t : list Z => bool_decide (Py.len t = 0)) (tubes s) 0).
Qed.

(** X4. [get_tubes_with_space] returns, in increasing order and without
    repetition, exactly the indices of the tubes shorter than the capacity.
    With a positive capacity every index of [get_empty_tubes] is among
    them. *)
Theorem get_tubes_with_space_spec (s : State) :
  (∀ i, i ∈ get_tubes_with_space s ↔
        0 ≤ i ∧ ∃ t, tubes s !! Z.to_nat i = Some t ∧ Py.len t < tube_capacity s) ∧
  StronglySorted Z.lt (get_tubes_with_space s) ∧
  (0 < tube_capacity s → get_empty_tubes s ⊆ get_tubes_with_space s).
Proof.
  assert (∀ i, i ∈ get_tubes_with_space s ↔
      0 ≤ i ∧ ∃ t, tubes s !! Z.to_nat i = Some t ∧ Py.len t < tube_capacity s)
    as Hmem.
  { intros i. unfold get_tubes_with_space. rewrite list_elem_of_bind. split.
    - intros ([k u] & Hi & (Hk & Hu)%elem_of_enumerate).
      case_bool_decide as Hlen; [|by apply elem_of_nil in Hi].
      apply list_elem_of_singleton in Hi as ->. eauto.
    - intros (Hi & t & Hu & Hlen). exists (i, t). split.
      + rewrite bool_decide_eq_true_2 by done. by apply list_elem_of_singleton.
      + by apply elem_of_enumerate. }
  split; [done|]. split.
  - apply (enumerate_filter_sorted
             (fun t : list Z => bool_decide (Py.len t < tube_capacity s)) (tubes s) 0).
  - intros Hcap i ([k u] & Hi & (Hk & Hu)%elem_of_enumerate)%list_elem_of_bind.
    case_bool_decide as Hlen; [|by apply elem_of_nil in Hi].
    apply list_elem_of_singleton in Hi as ->.
    apply Hmem. split; [done|]. exists u. split; [done|]. lia.
Qed.

(** ** The candidates of [find_moves_for_color] *)

Lemma candidates_into_spec s f ty prio targets :
  in_range s f → Forall (in_range s) targets →
  ∃ l, candidates_into s f ty prio targets = Ok l ∧
    Forall (fun m => cand_from m = f ∧ cand_to m ∈ targets ∧ cand_type m = ty ∧
                     priority m = prio ∧ can_pour s f (cand_to m) = Ok true) l.
Proof.
  intros Hf. induction 1 as [|t targets Ht _ IH]; simpl.
  { exists []. split; [done|constructor]. }
  destruct IH as (l & -> & Hl).
  assert (Forall (fun m => cand_from m = f ∧ cand_to m ∈ t :: targets ∧
                           cand_type m = ty ∧ priority m = prio ∧
                           can_pour s f (cand_to m) = Ok true) l) as Hl'.
  { eapply Forall_impl; [exact Hl|]. simpl. intros m (? & ? & ?).
    split; [done|]. split; [by right|done]. }
  destruct (can_pour_in_range s f t Hf Ht) as (b & Hb).
  case_bool_decide; simpl; [|by exists l].
  rewrite Hb. simpl. destruct b; [|by exists l].
  eexists. split; [done|]. constructor; [|done]. simpl.
  repeat split; try done. by left.
Qed.

Lemma position_occurrence s c p :
  p ∈ positions_of true (tubes s) c →
  in_range s (tube_index p) ∧
  if is_top p then top_is s (tube_index p) c else buried s (tube_index p) c.
Proof.
  intros (ti & pos & t & Ht & Hc & ->)%positions_of_elem. simpl.
  split; [by eapply lookup_in_range|].
  apply lookup_lt_Some in Hc as Hlt. unfold Py.len.
  case_bool_decide as Htop.
  - exists t. rewrite Nat2Z.id. split; [done|]. rewrite last_lookup, <-Hc.
    f_equal. lia.
  - exists t, pos. rewrite Nat2Z.id. repeat split; try done. lia.
Qed.

Lemma elem_of_get_empty_tubes s i :
  i ∈ get_empty_tubes s ↔ 0 ≤ i ∧ tubes s !! Z.to_nat i = Some [].
Proof.
  unfold get_empty_tubes. rewrite list_elem_of_bind. split.
  - intros ([k u] & Hi & (Hk & Hu)%elem_of_enumerate).
    case_bool_decide as Hlen; [|by apply elem_of_nil in Hi].
    apply list_elem_of_singleton in Hi as ->.
    apply len_zero in Hlen as ->. done.
  - intros (Hi & Hu). exists (i, []). split.
    + rewrite bool_decide_eq_true_2 by done. by apply list_elem_of_singleton.
    + by apply elem_of_enumerate.
Qed.

Lemma candidates_for_position_spec s c p :
  p ∈ positions_of true (tubes s) c →
  ∃ l, candidates_for_position s (get_empty_tubes s) (get_tubes_with_space s) p = Ok l ∧
       Forall (candidate_ok s c) l.
Proof.
  intros (Hin & Hkind)%position_occurrence. unfold candidates_for_position.
  pose proof (get_tubes_with_space_in_range s) as Hws.
  pose proof (get_empty_tubes_in_range s) as Hes.
  destruct (is_top p).
  - destruct (candidates_into_spec s (tube_index p) collect 80 _ Hin Hws)
      as (l & -> & Hl).
    exists l. split; [done|]. eapply Forall_impl; [exact Hl|]. simpl.
    intros m (Hf & Ht & Hty & Hp & Hcp). rewrite Forall_forall in Hws.
    unfold candidate_ok. rewrite Hf, Hty. auto.
  - case_bool_decide; [|exists []; split; [done|constructor]].
    destruct (candidates_into_spec s (tube_index p) free 90 _ Hin Hws)
      as (l1 & -> & Hl1).
    destruct (candidates_into_spec s (tube_index p) free_to_empty 95 _ Hin Hes)
      as (l2 & -> & Hl2).
    simpl. exists (l1 ++ l2). split; [done|]. apply Forall_app. split.
    + eapply Forall_impl; [exact Hl1|]. simpl.
      intros m (Hf & Ht & Hty & Hp & Hcp). rewrite Forall_forall in Hws.
      unfold candidate_ok. rewrite Hf, Hty. auto.
    + eapply Forall_impl; [exact Hl2|]. simpl.
      intros m (Hf & Ht & Hty & Hp & Hcp). rewrite Forall_forall in Hes.
      unfold candidate_ok. rewrite Hf, Hty.
      pose proof (Hes _ Ht) as Hto.
      apply elem_of_get_empty_tubes in Ht as [_ Hempty].
      split; [done|]. split; [done|]. split; [done|]. auto.
Qed.

Lemma candidates_for_positions_spec s c ps :
  Forall (fun p => p ∈ positions_of true (tubes s) c) ps →
  ∃ l, candidates_for_positions s (get_empty_tubes s) (get_tubes_with_space s) ps = Ok l ∧
       Forall (candidate_ok s c) l.
Proof.
  induction 1 as [|p ps Hp _ IH]; simpl.
  { exists []. split; [done|constructor]. }
  destruct (candidates_for_position_spec s c p Hp) as (l1 & -> & Hl1).
  destruct IH as (l2 & -> & Hl2). simpl.
  exists (l1 ++ l2). split; [done|]. by apply Forall_app.
Qed.

Lemma elem_of_tubes_with_target_top s c i :
  i ∈ tubes_with_target_top s c → in_range s i ∧ top_is s i c.
Proof.
  intros ([k u] & Hi & Hk)%list_elem_of_bind.
  destruct (last u) as [x|] eqn:Hlast; [|by apply elem_of_nil in Hi].
  case_bool_decide; [|by apply elem_of_nil in Hi]. subst x.
  apply list_elem_of_singleton in Hi as ->.
  split; [by eapply enumerate_in_range|].
  apply elem_of_enumerate in Hk as (_ & Hu). by exists u.
Qed.

Lemma merge_into_spec s c f later :
  in_range s f → top_is s f c →
  Forall (fun i => in_range s i ∧ top_is s i c) later →
  ∃ l, merge_into s f later = Ok l ∧ Forall (candidate_ok s c) l.
Proof.
  intros Hf Htop. induction 1 as [|t later [Ht Htt] _ IH]; simpl.
  { exists []. split; [done|constructor]. }
  destruct IH as (l & -> & Hl).
  destruct (can_pour_in_range s f t Hf Ht) as (b & Hb). rewrite Hb. simpl.
  destruct b; [|by exists l].
  eexists. split; [done|]. constructor; [|done].
  unfold candidate_ok. simpl. repeat split; try done; apply Hf || apply Ht.
Qed.

Lemma merge_candidates_spec s c tops :
  Forall (fun i => in_range s i ∧ top_is s i c) tops →
  ∃ l, merge_candidates s tops = Ok l ∧ Forall (candidate_ok s c) l.
Proof.
  induction 1 as [|f tops [Hf Htop] Htops IH]; simpl.
  { exists []. split; [done|constructor]. }
  destruct (merge_into_spec s c f tops Hf Htop Htops) as (l1 & -> & Hl1).
  destruct IH as (l2 & -> & Hl2). simpl.
  exists (l1 ++ l2). split; [done|]. by apply Forall_app.
Qed.

Lemma StronglySorted_mono {A} (R R' : relation A) l :
  (∀ a b, R a b → R' a b) → StronglySorted R l → StronglySorted R' l.
Proof.
  intros HR. induction 1 as [|x l _ IH Hx]; constructor; [done|].
  eapply Forall_impl; [exact Hx|]. apply HR.
Qed.

Lemma find_moves_for_color_spec s c :
  ∃ l, find_moves_for_color s c = Ok l ∧
       Forall (candidate_ok s c) l ∧
       StronglySorted (fun a b => priority b ≤ priority a) l.
Proof.
  unfold find_moves_for_color.
  destruct (candidates_for_positions_spec s c
              (Py.sorted by_depth_desc (positions_of true (tubes s) c)))
    as (l1 & -> & Hl1).
  { apply Forall_forall. intros p. by rewrite sorted_perm. }
  simpl.
  assert (∃ l2, (if bool_decide (1 < Py.len (tubes_with_target_top s c))
                 then merge_candidates s (tubes_with_target_top s c)
                 else Ok []) = Ok l2 ∧ Forall (candidate_ok s c) l2)
    as (l2 & -> & Hl2).
  { case_bool_decide; [|exists []; split; [done|constructor]].
    apply merge_candidates_spec, Forall_forall.
    intros i. apply elem_of_tubes_with_target_top. }
  simpl. eexists. split; [done|]. split.
  - rewrite sorted_perm. by apply Forall_app.
  - eapply StronglySorted_mono.
    2:{ apply (sorted_sorted by_priority_desc).
        - intros x y. unfold by_priority_desc.
          rewrite !bool_decide_eq_true. lia.
        - intros x y z. unfold by_priority_desc.
          rewrite !bool_decide_eq_true. lia. }
    intros a b. unfold by_priority_desc. by rewrite bool_decide_eq_true.
Qed.

(** X5. [find_moves_for_color] never raises, whatever the state and the
    colour it is asked for.  Every candidate it returns is a legal pour
    between two tube indices and has the priority of its kind; a [collect]
    comes from a tube with the target colour on top, a [free] or
    [free_to_empty] from a tube that holds the target colour under its top
    unit, a [free_to_empty] goes into an empty tube, and a [merge] joins two
    tubes that both have the colour on top.  The list is ordered by
    decreasing priority. *)
Theorem find_moves_for_color_sound (s : State) (target_color : color) :
  ∃ l, find_moves_for_color s target_color = Ok l ∧
       Forall (candidate_ok s target_color) l ∧
       StronglySorted (fun a b => priority b ≤ priority a) l.
Proof. apply find_moves_for_color_spec. Qed.

(** ** The list of legal moves of the escape step *)

Lemma legal_from_spec s f tos :
  in_range s f → Forall (in_range s) tos → NoDup tos →
  ∃ l, legal_from s f tos = Ok l ∧ NoDup l ∧
    ∀ m, m ∈ l ↔ ∃ t, m = (f, t) ∧ t ∈ tos ∧ can_pour s f t = Ok true.
Proof.
  intros Hf Htos. induction Htos as [|t tos Ht _ IH]; intros Hnd; simpl.
  { exists []. split; [done|]. split; [constructor|]. intros m. split.
    - by intros ?%elem_of_nil.
    - by intros (t & _ & ?%elem_of_nil & _). }
  apply NoDup_cons in Hnd as [Hnt Hnd].
  destruct (IH Hnd) as (l & -> & Hl & Hmem).
  destruct (can_pour_in_range s f t Hf Ht) as (b & Hb). rewrite Hb. simpl.
  destruct b.
  - eexists. split; [done|]. split.
    + constructor; [|done]. intros (t' & [= <-] & Hin & _)%Hmem. done.
    + intros m. rewrite elem_of_cons, Hmem. split.
      * intros [->|(t' & -> & Hin & Hcp)]; [exists t|exists t'];
          repeat split; try done; [by left|by right].
      * intros (t' & -> & [->|Hin]%elem_of_cons & Hcp); [by left|right; eauto].
  - exists l. split; [done|]. split; [done|]. intros m. rewrite Hmem. split.
    + intros (t' & -> & Hin & Hcp). exists t'. repeat split; try done. by right.
    + intros (t' & -> & [->|Hin]%elem_of_cons & Hcp); [congruence|eauto].
Qed.

Lemma legal_pairs_spec s froms tos :
  Forall (in_range s) froms → Forall (in_range s) tos → NoDup froms → NoDup tos →
  ∃ l, legal_pairs s froms tos = Ok l ∧ NoDup l ∧
    ∀ f t, (f, t) ∈ l ↔ f ∈ froms ∧ t ∈ tos ∧ can_pour s f t = Ok true.
Proof.
  intros Hfroms Htos Hndf Hndt.
  induction Hfroms as [|f froms Hf _ IH]; simpl.
  { exists []. split; [done|]. split; [constructor|]. intros f t. split.
    - by intros ?%elem_of_nil.
    - by intros (?%elem_of_nil & _). }
  apply NoDup_cons in Hndf as [Hnf Hndf].
  destruct (legal_from_spec s f tos Hf Htos Hndt) as (l1 & -> & Hnd1 & Hmem1).
  destruct (IH Hndf) as (l2 & -> & Hnd2 & Hmem2). simpl.
  exists (l1 ++ l2). split; [done|]. split.
  - apply NoDup_app. split; [done|]. split; [|done].
    intros [f' t'] (t2 & [= -> ->] & _)%Hmem1 (Hin & _)%Hmem2. done.
  - intros f' t'. rewrite elem_of_app, Hmem1, Hmem2, elem_of_cons. split.
    + intros [(t2 & [= -> ->] & Hin & Hcp)|(Hin & Ht & Hcp)]; auto.
    + intros ([->|Hin] & Ht & Hcp); [left; eauto|right; auto].
Qed.

Lemma all_legal_moves_spec s :
  ∃ l, all_legal_moves s = Ok l ∧ NoDup l ∧
    (∀ f t, (f, t) ∈ l ↔ in_range s f ∧ in_range s t ∧ can_pour s f t = Ok true) ∧
    (l = [] ↔ stuck s).
Proof.
  unfold all_legal_moves.
  assert (Forall (in_range s) (Py.range (Py.len (tubes s)))) as Hall.
  { apply Forall_forall. intros f. by rewrite elem_of_range. }
  destruct (legal_pairs_spec s _ _ Hall Hall) as (l & -> & Hnd & Hmem);
    [apply NoDup_seqZ..|].
  exists l. split; [done|]. split; [done|].
  assert (∀ f t, (f, t) ∈ l ↔
            in_range s f ∧ in_range s t ∧ can_pour s f t = Ok true) as Hmem'.
  { intros f t. by rewrite Hmem, !elem_of_range. }
  split; [done|]. split.
  - intros -> f t Hf Ht Hcp. eapply elem_of_nil, (Hmem' f t). auto.
  - intros Hstuck. destruct l as [|[f t] l]; [done|].
    destruct (proj1 (Hmem' f t)) as (Hf & Ht & Hcp); [by left|].
    by destruct (Hstuck f t).
Qed.

(** X6. The list of moves that the escape branch of [solve] draws from is
    built without raising; it holds every legal pour between two tube
    indices, nothing else, and none twice.  It is empty exactly when no
    pour is legal. *)
Theorem all_legal_moves_exact (s : State) :
  ∃ l, all_legal_moves s = Ok l ∧ NoDup l ∧
    (∀ f t, (f, t) ∈ l ↔ in_range s f ∧ in_range s t ∧ can_pour s f t = Ok true) ∧
    (l = [] ↔ stuck s).
Proof. apply all_legal_moves_spec. Qed.

(** ** The solve loop *)

Lemma pour_ignores_visited s f t b s' v :
  pour s f t = Ok (b, s') → pour (set_visited s v) f t = Ok (b, set_visited s' v).
Proof.
  intros [(-> & -> & Hcp)|(-> & i & j & src & dst & c & Hl & ->)]%pour_inv.
  - by apply pour_refused.
  - assert (legal (set_visited s v) f t i j src dst c) as Hl' by exact Hl.
    by rewrite (pour_legal _ _ _ _ _ _ _ _ Hl').
Qed.

Lemma set_visited_id s : set_visited s (visited_states s) = s.
Proof. by destruct s. Qed.

Lemma pour_keeps_attributes s f t b s' :
  pour s f t = Ok (b, s') →
  original_tubes s' = original_tubes s ∧ tube_capacity s' = tube_capacity s ∧
  total_colors s' = total_colors s ∧ empty_tubes_count s' = empty_tubes_count s ∧
  visited_states s' = visited_states s ∧ length (tubes s') = length (tubes s) ∧
  moves s' = moves s ++ (if b then [(f, t)] else []).
Proof.
  intros [(-> & -> & Hcp)|(-> & i & j & src & dst & c & Hl & ->)]%pour_inv.
  - by rewrite app_nil_r.
  - simpl. by rewrite poured_tubes_length.
Qed.

(** Whatever branch the loop body takes, the state it leaves is the state
    it found, or the result of one call of [pour], up to the visited set. *)
Lemma solve_step_pours set_iter rng k s b s1 :
  solve_step set_iter rng k s = Ok (b, s1) →
  set_visited s1 ∅ = set_visited s ∅ ∨
  ∃ f t b', pour (set_visited s ∅) f t = Ok (b', set_visited s1 ∅).
Proof.
  assert (∀ f t b1 (s3 : State) v,
            pour (set_visited s v) f t = Ok (b1, s3) →
            ∃ f t b', pour (set_visited s ∅) f t = Ok (b', set_visited s3 ∅))
    as Hpour.
  { intros f t b1 s3 v Hp. exists f, t, b1.
    by apply (pour_ignores_visited _ _ _ _ _ ∅) in Hp. }
  assert (∀ s2 v, s2 = set_visited s v → ∀ r : result (bool * State),
            (backup_step s2 = r) → r = Ok (b, s1) →
            set_visited s1 ∅ = set_visited s ∅ ∨
            ∃ f t b', pour (set_visited s ∅) f t = Ok (b', set_visited s1 ∅))
    as Hbackup.
  { intros s2 v -> r <-. unfold backup_step.
    destruct (find_backup_move _) as [[[f t]|]|]; simpl; [| |done].
    - destruct (pour _ f t) as [[b1 s3]|] eqn:Hp; simpl; [|done].
      intros [= <- <-]. right. by eapply Hpour.
    - intros [= <- <-]. by left. }
  unfold solve_step. case_bool_decide.
  - destruct (all_legal_moves s) as [l|]; simpl; [|done].
    case_bool_decide; [|intros [= <- <-]; by left].
    destruct (random_choice _ l) as [[f t]|]; simpl; [|done].
    destruct (pour s f t) as [[b1 s3]|] eqn:Hp; simpl; [|done].
    intros [= <- <-]. right. rewrite <-(set_visited_id s) in Hp.
    by eapply Hpour.
  - set (v := visited_states s ∪ {[get_state_hash s]}).
    destruct (find_target_color _ _) as [c|]; [|by eapply Hbackup].
    case_bool_decide; [|by eapply Hbackup].
    destruct (find_moves_for_color _ c) as [[|m l]|]; simpl; [| |done].
    + by eapply Hbackup.
    + destruct (pour _ _ _) as [[b1 s3]|] eqn:Hp; simpl; [|done].
      intros [= <- <-]. right. by eapply Hpour.
Qed.

Lemma solve_loop_invariant set_iter rng (P : State → Prop) :
  (∀ s v, P s → P (set_visited s v)) →
  (∀ s f t b s', P s → pour s f t = Ok (b, s') → P s') →
  ∀ fuel k s s',
    P s → solve_loop set_iter rng fuel k s = Some (Ok s') → P s'.
Proof.
  intros Hv Hp. induction fuel as [|fuel IH]; intros k s s' Hs; [done|].
  cbn [solve_loop]. destruct (is_solved s); [by intros [= <-]|].
  destruct (solve_step set_iter rng k s) as [[b s1]|] eqn:Hstep; [|done].
  assert (P s1) as Hs1.
  { rewrite <-(set_visited_id s1).
    apply solve_step_pours in Hstep as [Heq|(f & t & b' & Hpour)].
    - apply (Hv (set_visited s1 ∅)). rewrite Heq. by apply Hv.
    - apply (Hv (set_visited s1 ∅)). eapply Hp; [|exact Hpour]. by apply Hv. }
  destruct b; [by apply IH|]. by intros [= <-].
Qed.

(** X7. Whatever [solve] returns, it has only poured: the units in the final
    tubes are a rearrangement of the units of the original configuration,
    the number of tubes and the attributes fixed by the constructor are
    unchanged, and no tube is longer than the capacity if none was in the
    original configuration. *)
Theorem solve_conserves (set_iter : list color → list color) (rng : nat → nat)
    (fuel : nat) (s : State) (b : bool) (s' : State) :
  solve set_iter rng fuel s = Some (Ok (b, s')) →
  concat (tubes s') ≡ₚ concat (original_tubes s) ∧
  length (tubes s') = length (original_tubes s) ∧
  original_tubes s' = original_tubes s ∧
  tube_capacity s' = tube_capacity s ∧
  total_colors s' = total_colors s ∧
  empty_tubes_count s' = empty_tubes_count s ∧
  (Forall (fun u => Py.len u ≤ tube_capacity s) (original_tubes s) →
   Forall (fun u => Py.len u ≤ tube_capacity s) (tubes s')).
Proof.
  unfold solve.
  destruct (solve_loop _ _ _ _ _) as [[s1|]|] eqn:Hloop; simpl; [|done..].
  intros [= <- <-].
  eapply (solve_loop_invariant set_iter rng (fun x =>
    concat (tubes x) ≡ₚ concat (original_tubes s) ∧
    length (tubes x) = length (original_tubes s) ∧
    original_tubes x = original_tubes s ∧
    tube_capacity x = tube_capacity s ∧
    total_colors x = total_colors s ∧
    empty_tubes_count x = empty_tubes_count s ∧
    (Forall (fun u => Py.len u ≤ tube_capacity s) (original_tubes s) →
     Forall (fun u => Py.len u ≤ tube_capacity s) (tubes x)))); [| |  |exact Hloop].
  - by intros x v.
  - intros x f t b1 x' (Hperm & Hlen & Ho & Hc & Ht & He & Hcap) Hp.
    pose proof (pour_keeps_attributes _ _ _ _ _ Hp) as (-> & -> & -> & -> & _ & -> & _).
    repeat split; try done.
    + apply pour_inv in Hp as [(_ & -> & _)|(_ & i & j & src & dst & c & Hl & ->)];
        [done|]. simpl. by rewrite (poured_tubes_perm _ _ _ _ _ _ _ _ Hl).
    + intros Horig. specialize (Hcap Horig). rewrite <-Hc in Hcap |- *.
      apply pour_inv in Hp as [(_ & -> & _)|(_ & i & j & src & dst & c & Hl & ->)];
        [done|]. simpl. by apply (poured_tubes_capacity _ f t).
  - simpl. by repeat split.
Qed.

Lemma solve_conserves_witness :
  ∃ s', solve remove_dups (fun _ => 0%nat) 100 (init [[1; 2; 1; 2]; [2; 1; 2; 1]; []])
          = Some (Ok (true, s')) ∧
        concat (tubes s') ≡ₚ [1; 2; 1; 2; 2; 1; 2; 1].
Proof.
  eexists. split; [vm_compute; reflexivity|].
  eapply (solve_conserves remove_dups (fun _ => 0%nat) 100
            (init [[1; 2; 1; 2]; [2; 1; 2; 1]; []]) true).
  vm_compute. reflexivity.
Defined.

Lemma random_choice_elem {A} (r : nat) (l : list A) :
  l ≠ [] → ∃ x, random_choice r l = Ok x ∧ x ∈ l.
Proof.
  intros Hl. unfold random_choice.
  assert (r `mod` length l < length l)%nat as Hlt.
  { apply Nat.mod_upper_bound. by destruct l. }
  destruct (lookup_lt_is_Some_2 l _ Hlt) as [x Hx]. exists x. split.
  - apply getitem_Ok. exists (r `mod` length l)%nat. split; [|done].
    by apply index_of_nat.
  - by eapply list_elem_of_lookup_2.
Qed.

Lemma pour_true_ok s f t :
  can_pour s f t = Ok true → ∃ s', pour s f t = Ok (true, s').
Proof.
  intros (i & j & src & dst & c & Hl)%can_pour_true.
  eexists. by apply (pour_legal _ _ _ _ _ _ _ _ Hl).
Qed.

(** With a capacity other than 1 the loop body never raises; it ends in
    [break] with the tubes and the trace untouched, or it has made one
    successful pour. *)
Lemma solve_step_progress set_iter rng k s :
  tube_capacity s ≠ 1 →
  ∃ b s1, solve_step set_iter rng k s = Ok (b, s1) ∧
    if b then ∃ f t, pour (set_visited s ∅) f t = Ok (true, set_visited s1 ∅)
    else set_visited s1 ∅ = set_visited s ∅.
Proof.
  intros Hcap.
  assert (∀ v f t, can_pour (set_visited s v) f t = Ok true →
            ∃ s3, pour (set_visited s v) f t = Ok (true, s3) ∧
                  pour (set_visited s ∅) f t = Ok (true, set_visited s3 ∅))
    as Hpour.
  { intros v f t (s3 & Hp)%pour_true_ok. exists s3. split; [done|].
    by apply (pour_ignores_visited _ _ _ _ _ ∅) in Hp. }
  assert (∀ v, ∃ b s1, backup_step (set_visited s v) = Ok (b, s1) ∧
            if b then ∃ f t, pour (set_visited s ∅) f t = Ok (true, set_visited s1 ∅)
            else set_visited s1 ∅ = set_visited s ∅) as Hbackup.
  { intros v. unfold backup_step.
    destruct (find_backup_move_spec (set_visited s v) Hcap) as (r & -> & _ & Hr).
    simpl. destruct r as [[f t]|].
    - destruct (Hr f t eq_refl) as [Hcp _].
      destruct (Hpour v f t Hcp) as (s3 & -> & Hp3). simpl.
      exists true, s3. split; [done|]. eauto.
    - by exists false, (set_visited s v). }
  unfold solve_step. case_bool_decide.
  - destruct (all_legal_moves_spec s) as (l & -> & _ & Hmem & _). simpl.
    case_bool_decide as Hl; [|by exists false, s].
    destruct (random_choice_elem (rng k) l Hl) as ([f t] & -> & Hin). simpl.
    apply Hmem in Hin as (_ & _ & Hcp).
    rewrite <-(set_visited_id s) in Hcp.
    destruct (Hpour _ f t Hcp) as (s3 & Hp & Hp3).
    rewrite set_visited_id in Hp. rewrite Hp. simpl.
    exists true, s3. split; [done|]. eauto.
  - set (v := visited_states s ∪ {[get_state_hash s]}).
    destruct (find_target_color _ _) as [c|]; [|apply Hbackup].
    case_bool_decide; [|apply Hbackup].
    destruct (find_moves_for_color_spec (set_visited s v) c) as (l & -> & Hl & _).
    simpl. destruct l as [|m l]; [apply Hbackup|].
    apply Forall_cons_1 in Hl as [(_ & _ & Hcp & _) _].
    destruct (Hpour v _ _ Hcp) as (s3 & -> & Hp3). simpl.
    exists true, s3. split; [done|]. eauto.
Qed.

Lemma solve_loop_replay set_iter rng fuel k s r :
  tube_capacity s ≠ 1 →
  solve_loop set_iter rng fuel k s = Some r →
  ∃ s' ms, r = Ok s' ∧ moves s' = moves s ++ ms ∧
           replay (set_visited s ∅) ms = Some (set_visited s' ∅).
Proof.
  revert k s. induction fuel as [|fuel IH]; intros k s Hcap; [done|].
  cbn [solve_loop]. destruct (is_solved s).
  { intros [= <-]. exists s, []. by rewrite app_nil_r. }
  destruct (solve_step_progress set_iter rng k s Hcap) as (b & s1 & -> & Hb).
  destruct b.
  - destruct Hb as (f & t & Hp).
    pose proof (pour_keeps_attributes _ _ _ _ _ Hp) as (_ & Hc & _ & _ & _ & _ & Hm).
    simpl in Hc, Hm. intros Hloop.
    destruct (IH (S k) s1) as (s' & ms & -> & Hms & Hrep); [congruence|done|].
    exists s', ((f, t) :: ms). split; [done|]. split.
    + by rewrite Hms, Hm, <-(assoc_L (++)).
    + cbn [replay]. by rewrite Hp.
  - intros [= <-]. exists s1, []. split; [done|].
    apply (f_equal moves) in Hb as Hm. simpl in Hm.
    rewrite app_nil_r. split; [done|]. simpl. by rewrite Hb.
Qed.

(** X8. [solve] raises no exception, and the trace it leaves in [moves] is
    a record of what happened: replaying the trace from the original
    configuration, every pour of it succeeds and the tubes reached are the
    final tubes; the verdict is [is_solved] of that final state.  (Capacity
    other than 1; the constructor sets 4.  [None] is the model running out
    of fuel.) *)
Theorem solve_trace_replays (set_iter : list color → list color) (rng : nat → nat)
    (fuel : nat) (s : State) (r : result (bool * State)) :
  tube_capacity s ≠ 1 →
  solve set_iter rng fuel s = Some r →
  ∃ s', r = Ok (is_solved s', s') ∧
        replay (reset s) (moves s') = Some (set_visited s' ∅).
Proof.
  intros Hcap. unfold solve.
  destruct (solve_loop _ _ _ _ _) as [r1|] eqn:Hloop; [|done].
  intros [= <-].
  apply solve_loop_replay in Hloop as (s' & ms & -> & Hms & Hrep); [|done].
  exists s'. split; [done|]. simpl in Hms. by rewrite Hms.
Qed.

Lemma solve_trace_replays_witness :
  ∃ s', solve remove_dups (fun _ => 0%nat) 100 (init [[1; 2; 1; 2]; [2; 1; 2; 1]; []])
          = Some (Ok (true, s')) ∧
        moves s' = [(1, 2); (0, 1); (0, 2); (1, 0); (2, 1); (1, 2); (0, 1); (0, 2)] ∧
        replay (init [[1; 2; 1; 2]; [2; 1; 2; 1]; []]) (moves s')
          = Some (set_visited s' ∅).
Proof.
  assert (∃ s0, solve remove_dups (fun _ => 0%nat) 100
                  (init [[1; 2; 1; 2]; [2; 1; 2; 1]; []]) = Some (Ok (true, s0)) ∧
                moves s0 = [(1, 2); (0, 1); (0, 2); (1, 0); (2, 1); (1, 2); (0, 1); (0, 2)])
    as (s0 & Hval & Hm) by (eexists; split; vm_compute; reflexivity).
  destruct (solve_trace_replays remove_dups (fun _ => 0%nat) 100
              (init [[1; 2; 1; 2]; [2; 1; 2; 1]; []]) (Ok (true, s0)))
    as (s' & Hr & Hrep); [simpl; lia|exact Hval|].
  injection Hr as _ <-. exists s0. split; [exact Hval|]. split; [exact Hm|exact Hrep].
Defined.

(** X9. A configuration that is already solved is left alone: [solve]
    returns [True] at once, with an empty move trace, the tubes of the
    original configuration and nothing recorded as visited. *)
Theorem solve_already_solved (set_iter : list color → list color) (rng : nat → nat)
    (fuel : nat) (s : State) :
  is_solved (reset s) = true →
  solve set_iter rng (S fuel) s = Some (Ok (true, reset s)) ∧
  moves (reset s) = [] ∧ tubes (reset s) = original_tubes s ∧
  visited_states (reset s) = ∅.
Proof.
  intros Hs. unfold solve. cbn [solve_loop]. rewrite Hs. simpl.
  by rewrite Hs.
Qed.

Lemma solve_already_solved_witness :
  solve remove_dups (fun _ => 0%nat) 1 (init [[1; 1; 1; 1]; []])
  = Some (Ok (true, init [[1; 1; 1; 1]; []])).
Proof.
  apply (solve_already_solved remove_dups (fun _ => 0%nat) 0
           (init [[1; 1; 1; 1]; []])).
  reflexivity.
Defined.

(** ** The fingerprint tells configurations apart *)

Lemma avoids_append a s1 s2 : avoids a (s1 +:+ s2) ↔ avoids a s1 ∧ avoids a s2.
Proof. induction s1 as [|b s1 IH]; simpl; [tauto|]. rewrite IH. tauto. Qed.

Lemma append_sep_inj a s1 s2 r1 r2 :
  avoids a s1 → avoids a s2 →
  s1 +:+ String a r1 = s2 +:+ String a r2 → s1 = s2 ∧ r1 = r2.
Proof.
  revert s2. induction s1 as [|b s1 IH]; intros [|b' s2]; simpl.
  - by intros _ _ [= ->].
  - intros _ [Hb _] [= -> _]. done.
  - intros [Hb _] _ [= -> _]. done.
  - intros [_ H1] [_ H2] [= -> Heq]. destruct (IH _ H1 H2 Heq) as [-> ->]. done.
Qed.

Lemma join_cons2 a s x l :
  Py.join (String a EmptyString) (s :: x :: l)
  = s +:+ String a (Py.join (String a EmptyString) (x :: l)).
Proof. done. Qed.

Lemma join_inj a l1 l2 :
  Forall (avoids a) l1 → Forall (avoids a) l2 → l1 ≠ [] → l2 ≠ [] →
  Py.join (String a EmptyString) l1 = Py.join (String a EmptyString) l2 →
  l1 = l2.
Proof.
  intros H1. revert l2. induction H1 as [|s1 l1 Hs1 Hl1 IH]; [done|].
  intros l2 H2 _ Hne2. destruct H2 as [|s2 l2 Hs2 Hl2]; [done|].
  destruct l1 as [|x1 l1], l2 as [|x2 l2].
  - by intros [= ->].
  - rewrite join_cons2. cbn [Py.join]. intros ->.
    apply avoids_append in Hs1 as [_ [? _]]. done.
  - rewrite join_cons2. cbn [Py.join]. intros <-.
    apply avoids_append in Hs2 as [_ [? _]]. done.
  - rewrite !join_cons2. intros [-> Heq]%append_sep_inj; [|done..].
    f_equal. by apply IH.
Qed.

Lemma avoids_join a b l :
  a ≠ b → Forall (avoids a) l → avoids a (Py.join (String b EmptyString) l).
Proof.
  intros Hab. induction 1 as [|s l Hs Hl IH]; [done|].
  destruct l as [|x l]; [done|]. rewrite join_cons2.
  apply avoids_append. split; [done|]. split; [congruence|done].
Qed.

Lemma join_nonempty sep s l : s ≠ EmptyString → Py.join sep (s :: l) ≠ EmptyString.
Proof.
  intros Hs. destruct l as [|x l]; [done|]. cbn [Py.join].
  destruct s; [done|]. done.
Qed.

Lemma pretty_N_go_avoids a x s :
  (∀ d, pretty_N_char d ≠ a) → avoids a s → avoids a (pretty_N_go x s).
Proof.
  intros Ha. revert s. induction (N.lt_wf_0 x) as [x _ IH]; intros s Hs.
  destruct (decide (x = 0)%N) as [->|Hx]; [by rewrite pretty_N_go_0|].
  rewrite pretty_N_go_step by lia. apply IH; [apply N.div_lt; lia|].
  split; [apply Ha|done].
Qed.

Lemma pretty_N_go_nonempty x s : s ≠ EmptyString → pretty_N_go x s ≠ EmptyString.
Proof.
  revert s. induction (N.lt_wf_0 x) as [x _ IH]; intros s Hs.
  destruct (decide (x = 0)%N) as [->|Hx]; [by rewrite pretty_N_go_0|].
  rewrite pretty_N_go_step by lia. apply IH; [apply N.div_lt; lia|done].
Qed.

Lemma str_avoids a (n : Z) :
  (∀ d, pretty_N_char d ≠ a) → a ≠ "-"%char → avoids a (Py.str n).
Proof.
  intros Ha Hdash. unfold Py.str, pretty, pretty_Z.
  assert (∀ p : positive, avoids a (pretty p)) as Hpos.
  { intros p. unfold pretty, pretty_positive, pretty, pretty_N.
    rewrite decide_False by done. by apply pretty_N_go_avoids. }
  destruct n as [|p|p].
  - simpl. split; [|done]. apply (Ha 0%N).
  - apply Hpos.
  - simpl. split; [congruence|apply Hpos].
Qed.

Lemma str_nonempty (n : Z) : Py.str n ≠ EmptyString.
Proof.
  unfold Py.str, pretty, pretty_Z.
  assert (∀ p : positive, pretty p ≠ EmptyString) as Hpos.
  { intros p. unfold pretty, pretty_positive, pretty, pretty_N.
    rewrite decide_False by done. rewrite pretty_N_go_step by lia.
    by apply pretty_N_go_nonempty. }
  destruct n as [|p|p]; [done|apply Hpos|done].
Qed.

Lemma digit_not_comma d : pretty_N_char d ≠ ","%char.
Proof. unfold pretty_N_char. by repeat case_match. Qed.

Lemma digit_not_bar d : pretty_N_char d ≠ "|"%char.
Proof. unfold pretty_N_char. by repeat case_match. Qed.

Lemma tube_string_avoids_bar (t : list Z) : avoids "|" (tube_string t).
Proof.
  unfold tube_string. apply avoids_join; [done|].
  apply Forall_fmap, Forall_forall. intros n _. simpl.
  apply str_avoids; [apply digit_not_bar|done].
Qed.

Lemma tube_string_inj (t1 t2 : list Z) : tube_string t1 = tube_string t2 → t1 = t2.
Proof.
  unfold tube_string. intros Heq.
  assert (∀ t : list Z, t ≠ [] →
            Py.join "," (Py.str <$> t) ≠ EmptyString) as Hne.
  { intros [|n t] Ht; [done|]. rewrite fmap_cons.
    apply join_nonempty, str_nonempty. }
  destruct (decide (t1 = [])) as [->|H1], (decide (t2 = [])) as [->|H2];
    [done| | |].
  - by destruct (Hne t2 H2).
  - by destruct (Hne t1 H1).
  - apply (inj (fmap Py.str)). apply (join_inj ","); try done.
    + apply Forall_fmap, Forall_forall. intros n _. simpl.
      apply str_avoids; [apply digit_not_comma|done].
    + apply Forall_fmap, Forall_forall. intros n _. simpl.
      apply str_avoids; [apply digit_not_comma|done].
    + by destruct t1.
    + by destruct t2.
Qed.

Lemma fmap_Permutation_inj {A B} (f : A → B) `{!Inj (=) (=) f} (l1 l2 : list A) :
  f <$> l1 ≡ₚ f <$> l2 → l1 ≡ₚ l2.
Proof.
  revert l2. induction l1 as [|x l1 IH]; intros l2 Hperm.
  - apply Permutation_nil_l in Hperm. symmetry in Hperm.
    by apply fmap_nil_inv in Hperm as ->.
  - assert (x ∈ l2) as Hx.
    { apply (list_elem_of_fmap_inj f). rewrite <-Hperm, fmap_cons. by left. }
    apply elem_of_Permutation in Hx as (l2' & Hl2).
    rewrite Hl2, !fmap_cons in Hperm. apply Permutation_cons_inv in Hperm.
    rewrite Hl2. apply perm_skip. by apply IH.
Qed.

Lemma get_state_hash_perm s1 s2 :
  tubes s1 ≡ₚ tubes s2 → get_state_hash s1 = get_state_hash s2.
Proof.
  intros Hperm. unfold get_state_hash. f_equal.
  apply (StronglySorted_unique (fun x y => String.leb x y = true)
           (AntiSymm0 := string_leb_antisym)).
  - apply sorted_sorted; [apply string_leb_total|apply string_leb_trans].
  - apply sorted_sorted; [apply string_leb_total|apply string_leb_trans].
  - by rewrite !sorted_perm, Hperm.
Qed.

Lemma get_state_hash_inj s1 s2 :
  length (tubes s1) = length (tubes s2) →
  get_state_hash s1 = get_state_hash s2 → tubes s1 ≡ₚ tubes s2.
Proof.
  intros Hlen Hhash. unfold get_state_hash in Hhash.
  destruct (tubes s1) as [|u1 ts1] eqn:H1, (tubes s2) as [|u2 ts2] eqn:H2;
    [done..|].
  rewrite <-H1, <-H2 in *.
  apply (fmap_Permutation_inj tube_string (Inj0 := tube_string_inj)).
  rewrite <-(sorted_perm String.leb (tube_string <$> tubes s1)).
  rewrite <-(sorted_perm String.leb (tube_string <$> tubes s2)).
  assert (∀ ts : list (list Z),
            Forall (avoids "|") (Py.sorted String.leb (tube_string <$> ts))) as Hav.
  { intros ts. rewrite sorted_perm. apply Forall_fmap, Forall_forall.
    intros t _. apply tube_string_avoids_bar. }
  assert (∀ ts : list (list Z), ts ≠ [] →
            Py.sorted String.leb (tube_string <$> ts) ≠ []) as Hne.
  { intros ts Hts Hnil. apply (f_equal length) in Hnil.
    rewrite sorted_perm, length_fmap in Hnil. by destruct ts. }
  assert (Py.sorted String.leb (tube_string <$> tubes s1)
          = Py.sorted String.leb (tube_string <$> tubes s2)) as ->; [|done].
  apply (join_inj "|"); [apply Hav|apply Hav| | |exact Hhash].
  - apply Hne. by rewrite H1.
  - apply Hne. by rewrite H2.
Qed.

(** X10. The fingerprint tells configurations apart: two states with the
    same number of tubes have the same fingerprint only if the tubes of one
    are a rearrangement of the tubes of the other.  Integers print without
    [,] and [|], so no two different tubes and no two different lists of
    tubes of equal length serialize alike. *)
Theorem fingerprint_injective (s1 s2 : State) :
  length (tubes s1) = length (tubes s2) →
  get_state_hash s1 = get_state_hash s2 →
  tubes s1 ≡ₚ tubes s2.
Proof. apply get_state_hash_inj. Qed.

Lemma fingerprint_injective_witness :
  get_state_hash (init [[1; 2]; []]) = get_state_hash (init [[]; [1; 2]]) ∧
  [[1; 2]; []] ≡ₚ [[]; [1; 2]].
Proof.
  split; [reflexivity|].
  apply (fingerprint_injective (init [[1; 2]; []]) (init [[]; [1; 2]]));
    reflexivity.
Defined.

(** Without tubes and with one empty tube the fingerprint is the empty
    string: the number of tubes is not part of it. *)
Example fingerprint_no_tube :
  get_state_hash (init []) = get_state_hash (init [[]]).
Proof. reflexivity. Qed.

Lemma insert_perm {A} (l : list A) i x y :
  l !! i = Some y → x :: l ≡ₚ y :: <[i:=x]> l.
Proof.
  intros Hy. apply lookup_lt_Some in Hy as Hlt.
  rewrite insert_take_drop by done.
  rewrite <-(take_drop_middle l i y Hy) at 1.
  rewrite !Permutation_middle. apply Permutation_app_head, perm_swap.
Qed.

Lemma insert_swap_perm {A} (l : list A) i j x y :
  i ≠ j → l !! i = Some x → l !! j = Some y → <[j:=x]> (<[i:=y]> l) ≡ₚ l.
Proof.
  intros Hne Hx Hy.
  assert (<[i:=y]> l !! j = Some y) as Hy' by (by rewrite list_lookup_insert_ne).
  apply (Permutation_cons_inv (a := y)).
  rewrite <-(insert_perm (<[i:=y]> l) j x y Hy').
  by rewrite <-(insert_perm l i y x Hx).
Qed.

(** X11. Moving a whole tube of one colour into an empty tube changes
    nothing for the cycle detection: the pour succeeds, the two tubes trade
    places, and the fingerprint of the state is the one it had before. *)
Theorem pour_whole_tube_same_fingerprint (s : State) (from_index to_index : Z)
    (i j : nat) (c : color) (k : nat) :
  Py.index (length (tubes s)) from_index = Some i →
  Py.index (length (tubes s)) to_index = Some j →
  i ≠ j →
  tubes s !! i = Some (replicate k c) →
  (1 ≤ k)%nat →
  tubes s !! j = Some [] →
  Z.of_nat k ≤ tube_capacity s →
  ∃ s', pour s from_index to_index = Ok (true, s') ∧
        tubes s' !! i = Some [] ∧
        tubes s' !! j = Some (replicate k c) ∧
        get_state_hash s' = get_state_hash s.
Proof.
  intros Hi Hj Hne Hsrc Hk Hdst Hcap.
  assert (legal s from_index to_index i j (replicate k c) [] c) as Hl.
  { repeat split; try done.
    - intros ->. congruence.
    - destruct k as [|k]; [lia|]. by rewrite replicate_S_end, last_snoc.
    - unfold Py.len. simpl. lia.
    - by left. }
  assert (pour_count s (replicate k c) [] c = k) as Hpc.
  { unfold pour_count. rewrite reverse_replicate.
    rewrite <-(app_nil_r (replicate k c)), run_length_replicate by done.
    unfold Py.len. simpl. lia. }
  assert (poured_tubes s i j (replicate k c) [] c
          = <[j:=replicate k c]> (<[i:=[]]> (tubes s))) as Htubes.
  { unfold poured_tubes. rewrite Hpc, decide_False by done.
    rewrite length_replicate, Nat.sub_diag. done. }
  eexists. split; [by apply (pour_legal _ _ _ _ _ _ _ _ Hl)|].
  cbn [tubes set_moves set_tubes]. rewrite Htubes.
  apply lookup_lt_Some in Hsrc as Hlti. apply lookup_lt_Some in Hdst as Hltj.
  split; [|split].
  - rewrite list_lookup_insert_ne by done. by rewrite list_lookup_insert_eq.
  - by rewrite list_lookup_insert_eq by (by rewrite length_insert).
  - apply get_state_hash_perm. cbn [tubes set_moves set_tubes].
    by apply insert_swap_perm.
Qed.

Lemma pour_whole_tube_same_fingerprint_witness :
  ∃ s', pour (init [[2; 2]; [1; 2]; []]) 0 2 = Ok (true, s') ∧
        tubes s' = [[]; [1; 2]; [2; 2]] ∧
        get_state_hash s' = get_state_hash (init [[2; 2]; [1; 2]; []]).
Proof.
  destruct (pour_whole_tube_same_fingerprint (init [[2; 2]; [1; 2]; []]) 0 2
              0 2 2 2) as (s' & Hp & _ & _ & Hh); try reflexivity.
  - discriminate.
  - simpl. lia.
  - simpl. lia.
  - exists s'. split; [exact Hp|]. split; [|exact Hh].
    vm_compute in Hp. by injection Hp as <-.
Defined.

Lemma is_solved_iff s :
  0 < tube_capacity s →
  is_solved s = true ↔
    Forall (fun t => t = [] ∨ full_single_color (tube_capacity s) t) (tubes s) ∧
    count_completed (tube_capacity s) (tubes s) = total_colors s ∧
    count_empty (tubes s) = empty_tubes_count s.
Proof.
  intros Hcap. unfold is_solved.
  pose proof (is_solved_loop_spec (tube_capacity s) (tubes s) 0 0 Hcap) as H.
  destruct (is_solved_loop _ _ _ _) as [[c e]|].
  - destruct H as (Hall & -> & ->). simpl.
    rewrite andb_true_iff, !bool_decide_eq_true. tauto.
  - split; [done|]. by intros (Hall & _).
Qed.

Lemma is_solved_perm s1 s2 :
  0 < tube_capacity s1 →
  tube_capacity s1 = tube_capacity s2 →
  total_colors s1 = total_colors s2 →
  empty_tubes_count s1 = empty_tubes_count s2 →
  tubes s1 ≡ₚ tubes s2 →
  is_solved s1 = is_solved s2.
Proof.
  intros Hcap Hc Ht He Hperm.
  assert (is_solved s1 = true ↔ is_solved s2 = true) as Hiff.
  { rewrite !is_solved_iff by lia. unfold count_completed, count_empty.
    by rewrite <-Hc, <-Ht, <-He, Hperm. }
  destruct (is_solved s1), (is_solved s2); try done.
  - symmetry. by apply Hiff.
  - by apply Hiff.
Qed.

(** X12. The verdict goes with the fingerprint: two states of one puzzle
    (same number of tubes, same capacity, [total_colors] and
    [empty_tubes_count]) that have the same fingerprint are both solved or
    both unsolved. *)
Theorem same_fingerprint_same_verdict (s1 s2 : State) :
  0 < tube_capacity s1 →
  tube_capacity s1 = tube_capacity s2 →
  total_colors s1 = total_colors s2 →
  empty_tubes_count s1 = empty_tubes_count s2 →
  length (tubes s1) = length (tubes s2) →
  get_state_hash s1 = get_state_hash s2 →
  is_solved s1 = is_solved s2.
Proof.
  intros Hcap Hc Ht He Hlen Hhash.
  apply is_solved_perm; try done. by apply get_state_hash_inj.
Qed.

Lemma same_fingerprint_same_verdict_witness :
  is_solved (set_tubes (init [[1; 1; 1; 1]; []]) [[]; [1; 1; 1; 1]]) = true.
Proof.
  rewrite <-(same_fingerprint_same_verdict (init [[1; 1; 1; 1]; []])
               (set_tubes (init [[1; 1; 1; 1]; []]) [[]; [1; 1; 1; 1]]));
    try reflexivity.
Defined.

(** ** The colour analysis, entry by entry *)

Lemma analyze_colors_keys set_iter s :
  NoDup (set_iter (concat (tubes s))) →
  NoDup ((analyze_colors set_iter s).*1).
Proof.
  intros Hnd. apply NoDup_fmap_fst.
  - intros c d1 d2 (_ & _ & ->)%analyze_colors_elem (_ & _ & ->)%analyze_colors_elem.
    done.
  - unfold analyze_colors. apply NoDup_bind; [| |done].
    + intros c1 c2 [c d] _ _ H1 H2.
      destruct (bool_decide (Py.len (positions_of false (tubes s) c1) = _));
        [|by apply elem_of_nil in H1].
      destruct (bool_decide (Py.len (positions_of false (tubes s) c2) = _));
        [|by apply elem_of_nil in H2].
      apply list_elem_of_singleton in H1, H2. congruence.
    + intros c _.
      destruct (bool_decide (Py.len (positions_of false (tubes s) c) = _));
        [apply NoDup_singleton|constructor].
Qed.

Lemma by_depth_desc_sorted ps :
  StronglySorted (fun p q => depth q ≤ depth p) (Py.sorted by_depth_desc ps).
Proof.
  eapply StronglySorted_mono.
  2:{ apply (sorted_sorted by_depth_desc).
      - intros x y. unfold by_depth_desc. rewrite !bool_decide_eq_true. lia.
      - intros x y z. unfold by_depth_desc. rewrite !bool_decide_eq_true. lia. }
  intros a b. unfold by_depth_desc. by rewrite bool_decide_eq_true.
Qed.

Lemma positions_describe s c b p :
  p ∈ positions_of b (tubes s) c → describes_unit s c p.
Proof.
  intros (ti & pos & t & Ht & Hc & ->)%positions_of_elem.
  exists t. simpl. rewrite !Nat2Z.id. apply lookup_lt_Some in Hc as Hlt.
  repeat split; try done; try lia.
  - rewrite bool_decide_eq_true. lia.
  - intros Hd. apply bool_decide_eq_true. lia.
Qed.

(** X13. What [analyze_colors] returns.  Its keys are the colours that
    occur in the tubes with exactly as many units as the capacity, each
    once.  The entry of such a colour lists every unit of the colour, with
    its tube, position, depth under the top and top flag, the deepest
    first; [total_count] is the capacity, and [is_collectible] says whether
    some tube has the colour on top. *)
Theorem analyze_colors_entries (set_iter : list color → list color) (s : State) :
  set_enumeration set_iter →
  NoDup ((analyze_colors set_iter s).*1) ∧
  (∀ c, c ∈ (analyze_colors set_iter s).*1 ↔
        c ∈ concat (tubes s) ∧ Z.of_nat (unit_count (tubes s) c) = tube_capacity s) ∧
  ∀ c d, (c, d) ∈ analyze_colors set_iter s →
    total_count d = tube_capacity s ∧
    Py.len (positions d) = tube_capacity s ∧
    StronglySorted (fun p q => depth q ≤ depth p) (positions d) ∧
    Forall (describes_unit s c) (positions d) ∧
    (∀ (ti pos : nat) (t : tube),
       tubes s !! ti = Some t → t !! pos = Some c →
       ∃ p, p ∈ positions d ∧ tube_index p = Z.of_nat ti ∧ position p = Z.of_nat pos) ∧
    (is_collectible d = true ↔ (1 ≤ top_count (tubes s) c)%nat).
Proof.
  intros Hset. split; [apply analyze_colors_keys, Hset|]. split.
  - intros c. rewrite list_elem_of_fmap. split.
    + intros ([c' d] & -> & (Hc & Hn & _)%analyze_colors_elem). simpl.
      split; [by apply Hset|done].
    + intros (Hc & Hn). eexists (c, _). split; [done|].
      apply analyze_colors_elem. split; [by apply Hset|]. split; [done|reflexivity].
  - intros c d Hin. pose proof (entry_positions _ _ _ _ Hin) as Hperm.
    pose proof (entry_collectible _ _ _ _ Hin) as Hcol.
    apply analyze_colors_elem in Hin as (Hc & Hn & ->). cbn [total_count positions] in *.
    assert (Py.len (positions_of false (tubes s) c) = tube_capacity s) as Hlen
      by (unfold Py.len; by rewrite length_positions_of).
    split; [done|]. split; [unfold Py.len; by rewrite sorted_perm|].
    split; [apply by_depth_desc_sorted|]. split; [|split; [|done]].
    + apply Forall_forall. intros p. rewrite sorted_perm.
      apply positions_describe.
    + intros ti pos t Ht Hpos. eexists (mkPosition _ _ _ _ _). split.
      * rewrite sorted_perm. apply positions_of_elem. by exists ti, pos, t.
      * done.
Qed.

Lemma analyze_colors_entries_witness :
  (analyze_colors remove_dups (init [[1; 2; 1; 2]; [2; 1; 1; 2]; [3]])).*1 = [1; 2] ∧
  NoDup ((analyze_colors remove_dups (init [[1; 2; 1; 2]; [2; 1; 1; 2]; [3]])).*1).
Proof.
  split; [reflexivity|].
  apply (analyze_colors_entries remove_dups
           (init [[1; 2; 1; 2]; [2; 1; 1; 2]; [3]]) set_enumeration_remove_dups).
Defined.

(** ** The tie-break of [find_target_color] *)

Lemma target_step_bound bc bs c d bc' bs' :
  target_step (bc, bs) (c, d) = (bc', bs') →
  bs ≤ bs' ∧ (is_collectible d = true → entry_score d ≤ bs').
Proof.
  rewrite target_step_eq. destruct (is_collectible d); simpl.
  - case_bool_decide; intros [= <- <-]; split; try done; lia.
  - intros [= <- <-]. split; [lia|done].
Qed.

Lemma foldl_target_step_first (F : Z → list (Z * ColorData)) cs bc bs c sc :
  (∀ k, F k = [] ∨ ∃ d, F k = [(k, d)]) →
  foldl target_step (bc, bs) (cs ≫= F) = (Some c, sc) →
  (bc = Some c ∧ bs = sc) ∨
  ∃ pre post d, cs = pre ++ c :: post ∧ F c = [(c, d)] ∧
    is_collectible d = true ∧ sc = entry_score d ∧ bs < sc ∧
    ∀ c' d', c' ∈ pre → F c' = [(c', d')] → is_collectible d' = true →
             entry_score d' < sc.
Proof.
  intros HF. revert bc bs. induction cs as [|c0 cs IH]; intros bc bs.
  { intros [= -> ->]. by left. }
  rewrite bind_cons, foldl_app.
  destruct (HF c0) as [Hnil|(d0 & Hd0)].
  - rewrite Hnil. cbn [foldl]. intros [Hleft|Hright]%IH; [by left|right].
    destruct Hright as (pre & post & d & -> & Hd & Hcol & -> & Hlt & Hpre).
    exists (c0 :: pre), post, d. repeat split; try done.
    intros c' d' [->|Hin]%elem_of_cons Hd'; [congruence|by eapply Hpre].
  - rewrite Hd0. cbn [foldl].
    destruct (target_step (bc, bs) (c0, d0)) as [bc1 bs1] eqn:Hstep.
    pose proof (target_step_bound _ _ _ _ _ _ Hstep) as (Hle & Hsc0).
    intros [(-> & ->)|Hright]%IH.
    + rewrite target_step_eq in Hstep. destruct (is_collectible d0) eqn:Hcol0; simpl in Hstep.
      * case_bool_decide as Hlt; [|left; by injection Hstep as -> ->].
        injection Hstep as -> <-. right. exists [], cs, d0.
        repeat split; try done. by intros c' d' ?%elem_of_nil.
      * left. by injection Hstep as -> ->.
    + right. destruct Hright as (pre & post & d & -> & Hd & Hcol & -> & Hlt & Hpre).
      exists (c0 :: pre), post, d. repeat split; try done; [lia|].
      intros c' d' [->|Hin]%elem_of_cons Hd' Hcol'; [|by eapply Hpre].
      assert (d' = d0) as -> by congruence. specialize (Hsc0 Hcol'). lia.
Qed.

Lemma find_target_color_first_best set_iter s c :
  set_enumeration set_iter →
  find_target_color set_iter s = Some c →
  ∃ pre post, set_iter (concat (tubes s)) = pre ++ c :: post ∧
    ∀ c' sc sc', c' ∈ pre → collectible s c' →
      has_score s c sc → has_score s c' sc' → sc' < sc.
Proof.
  intros Hset. unfold find_target_color.
  destruct (foldl target_step (None, -1) (analyze_colors set_iter s))
    as [bc sc0] eqn:Hfold. simpl. intros ->.
  unfold analyze_colors in Hfold.
  apply foldl_target_step_first in Hfold as [[? _]|Hright]; [done| |].
  2:{ intros k.
      destruct (bool_decide (Py.len (positions_of false (tubes s) k) = _));
        [right; by eexists|by left]. }
  destruct Hright as (pre & post & d & Hcs & Hd & Hcol & -> & _ & Hpre).
  exists pre, post. split; [done|].
  assert (∀ k dk, k ∈ set_iter (concat (tubes s)) →
            (k, dk) ∈ analyze_colors set_iter s →
            (if bool_decide
                  (Py.len (positions_of false (tubes s) k) = tube_capacity s)
             then [(k, dk)] else []) = [(k, dk)]) as Hentry.
  { intros k dk Hk Hin.
    apply analyze_colors_elem in Hin as (_ & Hn & ->).
    rewrite bool_decide_eq_true_2; [done|].
    unfold Py.len. by rewrite length_positions_of. }
  assert ((c, d) ∈ analyze_colors set_iter s) as Hin.
  { unfold analyze_colors. apply list_elem_of_bind. exists c. split.
    - rewrite Hd. by left.
    - rewrite Hcs. apply elem_of_app. right. by left. }
  intros c' sc sc' Hc' (d' & Hin' & Hcol')%(collectible_entry set_iter s Hset) Hsc Hsc'.
  destruct (entry_has_score _ _ _ _ Hin Hcol) as (Hs & _).
  destruct (entry_has_score _ _ _ _ Hin' Hcol') as (Hs' & _).
  rewrite (has_score_unique _ _ _ _ Hsc Hs), (has_score_unique _ _ _ _ Hsc' Hs').
  eapply (Hpre c' d'); [done| |done].
  assert (c' ∈ set_iter (concat (tubes s))) as Hk
    by (rewrite Hcs; apply elem_of_app; by left).
  pose proof (Hentry c' d' Hk Hin') as He.
  apply analyze_colors_elem in Hin' as (_ & _ & Hd').
  rewrite Hd'. rewrite Hd' in He. exact He.
Qed.

(** X14. The tie-break of [find_target_color]: the score has to be strictly
    higher to replace the best colour so far, so among the collectible
    colours of highest score the one returned is the first in the iteration
    order of the set of colours; every collectible colour that the
    iteration meets before it has a strictly lower score. *)
Theorem find_target_color_tie_break (set_iter : list color → list color)
    (s : State) (c : color) :
  set_enumeration set_iter →
  find_target_color set_iter s = Some c →
  ∃ pre post, set_iter (concat (tubes s)) = pre ++ c :: post ∧
    ∀ c' sc sc', c' ∈ pre → collectible s c' →
      has_score s c sc → has_score s c' sc' → sc' < sc.
Proof. apply find_target_color_first_best. Qed.

Lemma find_target_color_tie_break_witness :
  find_target_color remove_dups (init [[1; 2]; [1; 2]; [2; 1]; [2; 1]]) = Some 2 ∧
  ∃ pre post, remove_dups [1; 2; 1; 2; 2; 1; 2; 1] = pre ++ 2 :: post.
Proof.
  split; [reflexivity|].
  destruct (find_target_color_tie_break remove_dups
              (init [[1; 2]; [1; 2]; [2; 1]; [2; 1]]) 2
              set_enumeration_remove_dups eq_refl) as (pre & post & Hsplit & _).
  exists pre, post. exact Hsplit.
Defined.

(** ** The attributes set by the constructor *)

(** X15. The constructor counts each colour once, however many tubes hold
    it, and counts the tubes that start empty; these two numbers, the
    original configuration and the capacity 4 are the same in every state
    that pours can reach. *)
Theorem attributes_of_reachable (cfg : list tube) (s : State) :
  reachable cfg s →
  original_tubes s = cfg ∧ tube_capacity s = 4 ∧
  total_colors s = distinct_colors cfg ∧
  empty_tubes_count s = count_empty cfg.
Proof. apply reachable_attributes. Qed.

Lemma attributes_of_reachable_witness :
  ∃ s', pour (init [[1; 2; 2]; [2]; []]) 0 1 = Ok (true, s') ∧
        total_colors s' = 2%nat ∧ empty_tubes_count s' = 1%nat.
Proof.
  eexists. split; [reflexivity|].
  destruct (attributes_of_reachable [[1; 2; 2]; [2]; []]
              (set_moves (set_tubes (init [[1; 2; 2]; [2]; []])
                                    [[1]; [2; 2; 2]; []]) [(0, 1)]))
    as (_ & _ & Ht & He).
  - apply (reach_pour _ (init [[1; 2; 2]; [2]; []]) 0 1 true);
      [apply reach_init | reflexivity].
  - split; [exact Ht | exact He].
Defined.
